(** * libplctag utilities: the lookup2 hash and the handle table

    A shallow embedding of [src/util/hash.c] (Bob Jenkins' lookup2 hash as
    shipped with libplctag) and of the contracts of the handle table and the
    tag engine, with the properties the specification states about them. *)

From Stdlib Require Import ZArith Lia List Bool.
From Stdlib Require Import Init.Byte Strings.Byte.
From stdpp Require Import base option list gmap.

Local Open Scope Z_scope.

(** ** Machine arithmetic *)

Module U32.

(** [uint32_t] values are integers in [0, 2^32); every operation of the
    source on [ub4] operands wraps around modulo [2^32]. *)
Definition modulus : Z := 2 ^ 32.

Definition wrap (x : Z) : Z := x mod modulus.

Definition add (x y : Z) : Z := wrap (x + y).
Definition sub (x y : Z) : Z := wrap (x - y).
Definition shl (x n : Z) : Z := wrap (Z.shiftl x n).
Definition shr (x n : Z) : Z := Z.shiftr x n.
Definition xor (x y : Z) : Z := Z.lxor x y.

Definition in_range (x : Z) : Prop := 0 <= x < modulus.

End U32.

(** [ub1]: the value of a key byte, promoted to an integer. *)
Definition ub1 (x : byte) : Z := Z.of_N (Byte.to_N x).

(** ** hash.c *)

Definition acc : Type := (Z * Z * Z)%type.

(** The [mix(a,b,c)] macro, one [let] per assignment. *)
Definition mix (s : acc) : acc :=
  let '(a, b, c) := s in
  let a := U32.sub a b in let a := U32.sub a c in let a := U32.xor a (U32.shr c 13) in
  let b := U32.sub b c in let b := U32.sub b a in let b := U32.xor b (U32.shl a 8) in
  let c := U32.sub c a in let c := U32.sub c b in let c := U32.xor c (U32.shr b 13) in
  let a := U32.sub a b in let a := U32.sub a c in let a := U32.xor a (U32.shr c 12) in
  let b := U32.sub b c in let b := U32.sub b a in let b := U32.xor b (U32.shl a 16) in
  let c := U32.sub c a in let c := U32.sub c b in let c := U32.xor c (U32.shr b 5) in
  let a := U32.sub a b in let a := U32.sub a c in let a := U32.xor a (U32.shr c 3) in
  let b := U32.sub b c in let b := U32.sub b a in let b := U32.xor b (U32.shl a 10) in
  let c := U32.sub c a in let c := U32.sub c b in let c := U32.xor c (U32.shr b 15) in
  (a, b, c).

(** [k0 + ((ub4)k1<<8) + ((ub4)k2<<16) + ((ub4)k3<<24)], as the block loop
    writes it. *)
Definition word_of (k0 k1 k2 k3 : byte) : Z :=
  U32.add (U32.add (U32.add (ub1 k0) (U32.shl (ub1 k1) 8))
                   (U32.shl (ub1 k2) 16))
          (U32.shl (ub1 k3) 24).

(** The [while (len >= 12)] loop.  The key is the list of bytes the pointer
    [k] points at; reading [k[0..11]] needs twelve bytes to be there (a read
    past the end of the key is [None]), and [k += 12] drops them. *)
Fixpoint hash_loop (k : list byte) (s : acc) (len : Z) {struct k}
  : option (list byte * acc * Z) :=
  if 12 <=? len then
    match k with
    | k0 :: k1 :: k2 :: k3 :: k4 :: k5 :: k6 :: k7 :: k8 :: k9 :: k10 :: k11 :: k' =>
        let '(a, b, c) := s in
        let a := U32.add a (word_of k0 k1 k2 k3) in
        let b := U32.add b (word_of k4 k5 k6 k7) in
        let c := U32.add c (word_of k8 k9 k10 k11) in
        hash_loop k' (mix (a, b, c)) (U32.sub len 12)
    | _ => None
    end
  else Some (k, s, len).

(** One [case n:] arm of the fall-through [switch(len)]: control enters at
    the label equal to [len] and runs every arm below it, so the arm labelled
    [n] runs exactly when [n <= len <= 11] (there is no [default]). *)
Definition reaches (n len : Z) : bool := (n <=? len) && (len <=? 11).

(** The operand of an arm: [((ub4)k[i] << sh)], or the bare [k[i]] of
    [case 5] and [case 1], converted to [ub4] by the addition. *)
Definition shifted (sh : Z) (ki : byte) : Z := U32.shl (ub1 ki) sh.
Definition bare (ki : byte) : Z := ub1 ki.

(** [x += operand(k[i])] guarded by its case label. *)
Definition arm (n len : Z) (k : list byte) (i : nat) (operand : byte -> Z) (x : Z)
  : option Z :=
  if reaches n len then
    ki ← k !! i; Some (U32.add x (operand ki))
  else Some x.

Definition hash_switch (k : list byte) (s : acc) (len : Z) : option acc :=
  let '(a, b, c) := s in
  c ← arm 11 len k 10 (shifted 24) c;
  c ← arm 10 len k 9 (shifted 16) c;
  c ← arm 9 len k 8 (shifted 8) c;
  b ← arm 8 len k 7 (shifted 24) b;
  b ← arm 7 len k 6 (shifted 16) b;
  b ← arm 6 len k 5 (shifted 8) b;
  b ← arm 5 len k 4 bare b;
  a ← arm 4 len k 3 (shifted 24) a;
  a ← arm 3 len k 2 (shifted 16) a;
  a ← arm 2 len k 1 (shifted 8) a;
  a ← arm 1 len k 0 bare a;
  Some (a, b, c).

Definition golden : Z := 0x9e3779b9.

(** [uint32_t hash(uint8_t *k, size_t length, uint32_t initval)]. *)
Definition hash (k : list byte) (length : Z) (initval : Z) : option Z :=
  let len := U32.wrap length in
  let a := golden in
  let b := golden in
  let c := initval in
  '(k, s, len) ← hash_loop k (a, b, c) len;
  let '(a, b, c) := s in
  let c := U32.add c (U32.wrap length) in
  s ← hash_switch k (a, b, c) len;
  let '(_, _, c) := mix s in
  Some c.

(** ** The hash as the specification describes it *)

Module Spec.

(** The little-endian value of a byte string. *)
Fixpoint le (bs : list byte) : Z :=
  match bs with
  | [] => 0
  | x :: bs => ub1 x + 256 * le bs
  end.

(** One 12-byte block: its three little-endian 32-bit words are added into
    [a], [b] and [c], and the accumulators are mixed. *)
Definition block (blk : list byte) (s : acc) : acc :=
  let '(a, b, c) := s in
  mix (U32.add a (le (take 4 blk)),
       U32.add b (le (take 4 (drop 4 blk))),
       U32.add c (le (take 4 (drop 8 blk)))).

Fixpoint blocks (n : nat) (k : list byte) (s : acc) : list byte * acc :=
  match n with
  | O => (k, s)
  | S n => blocks n (drop 12 k) (block (take 12 k) s)
  end.

(** Folding one remaining byte: byte number [i] of the remainder goes to
    [a] for [i < 4], to [b] for [4 <= i < 8] and to [c] above, at the byte
    position it has in the block; the low byte of [c] is left to the
    length. *)
Definition fold_byte (s : acc) (ix : nat * byte) : acc :=
  let '(a, b, c) := s in
  let '(i, x) := ix in
  if (i <? 4)%nat then (U32.add a (ub1 x * 2 ^ (8 * Z.of_nat i)), b, c)
  else if (i <? 8)%nat then (a, U32.add b (ub1 x * 2 ^ (8 * Z.of_nat (i - 4))), c)
  else (a, b, U32.add c (ub1 x * 2 ^ (8 * Z.of_nat (i - 8 + 1)))).

Definition fold_rest (rest : list byte) (s : acc) : acc :=
  fold_left fold_byte (imap pair rest) s.

(** The digest of the first [n] bytes of [k] ([None] when [k] is shorter):
    [n / 12] blocks, the length added into [c], the [n mod 12] remaining
    bytes folded in, a last mix, the third accumulator. *)
Definition hash_spec (k : list byte) (n : Z) (seed : Z) : option Z :=
  if decide (n <= Z.of_nat (length k)) then
    let '(rest, (a, b, c)) := blocks (Z.to_nat (n / 12)) k (golden, golden, seed) in
    let s := fold_rest (take (Z.to_nat (n mod 12)) rest) (a, b, U32.add c n) in
    let '(_, _, c) := mix s in
    Some c
  else None.

End Spec.

(** The byte with value [x mod 256]. *)
Definition byte_of (x : Z) : byte :=
  default x00 (Byte.of_N (Z.to_N (x mod 256))).

(** ** Measuring avalanche *)

Module Avalanche.

(** Number of one bits. *)
Fixpoint pos_popcount (p : positive) : Z :=
  match p with
  | xH => 1
  | xO p => pos_popcount p
  | xI p => 1 + pos_popcount p
  end.

Definition popcount (x : Z) : Z :=
  match x with
  | Z.pos p => pos_popcount p
  | _ => 0
  end.

(** Hamming distance of two digests, and of two keys of the same length. *)
Definition hamming (x y : Z) : Z := popcount (Z.lxor x y).

Fixpoint key_hamming (k1 k2 : list byte) : Z :=
  match k1, k2 with
  | x :: k1, y :: k2 => hamming (ub1 x) (ub1 y) + key_hamming k1 k2
  | _, _ => 0
  end.

(** The key with bit [j] inverted (bit [j mod 8] of byte [j / 8]). *)
Definition flip_bit (k : list byte) (j : nat) : list byte :=
  alter (fun x => byte_of (Z.lxor (ub1 x) (2 ^ Z.of_nat (j mod 8)))) (j / 8)%nat k.

Definition single_bit_changes (k : list byte) : list (list byte) :=
  map (flip_bit k) (seq 0 (8 * length k)).

(** Hamming distance of the digests of [k] and [k'] under seed [s]. *)
Definition digest_distance (s : Z) (k k' : list byte) : Z :=
  match hash k (Z.of_nat (length k)) s, hash k' (Z.of_nat (length k')) s with
  | Some d, Some d' => hamming d d'
  | _, _ => 0
  end.

(** Sum of the digest distances over every single-bit change of [k]. *)
Definition total_distance (s : Z) (k : list byte) : Z :=
  fold_right Z.add 0 (map (digest_distance s k) (single_bit_changes k)).

(** The sampled keys: the prefixes of the lower-case alphabet, one of every
    length from 1 to 26 (every arm of the tail switch, with none, one and
    two full blocks before it), and all the keys of one byte. *)
Definition alphabet : list byte :=
  [x61; x62; x63; x64; x65; x66; x67; x68; x69; x6a; x6b; x6c; x6d;
   x6e; x6f; x70; x71; x72; x73; x74; x75; x76; x77; x78; x79; x7a].

Definition sample : list (list byte) :=
  map (fun n => take n alphabet) (seq 1 26).

Definition one_byte_keys : list (list byte) :=
  map (fun n => [byte_of (Z.of_nat n)]) (seq 0 256).

(** Two keys of four bytes that differ in one bit, and the seed under which
    they collide. *)
Definition key_a : list byte := [xcd; xaa; xab; xfd].
Definition key_b : list byte := [xcc; xaa; xab; xfd].
Definition colliding_seed : Z := 3555953386.

End Avalanche.

(** ** The handle table (hashtable.h)

    [src/util/hashtable.h] declares the operations; their bodies
    ([hashtable.c]) are not part of the sources at hand and are modelled from
    the specification, section 4.2. *)

Module Hashtable.

(** [void *]: an owner pointer; [NULL] is the sentinel of an absent value. *)
Definition NULL : Z := 0.

(** Modelled from the spec: the status of [hashtable_put] ([hashtable.c] is
    missing), "fails only on allocation failure". *)
Inductive status : Type := STATUS_OK | ERR_NO_MEM.

(** Modelled from the spec: the table of [hashtable.c] (missing), "Handle
    Table entry: (int64 key = handle, value = Tag owner reference)", an
    array of slots of which some are holes ("removal clears the slot",
    "iteration tolerates holes", [get_by_index]). *)
Abbreviation entry := (Z * Z)%type.
Abbreviation hashtable_t := (list (option entry)).

(** The live entries, in slot order. *)
Definition live (t : hashtable_t) : list entry := omap id t.

Definition holds (key : Z) (e : option entry) : bool :=
  match e with
  | Some (k, _) => k =? key
  | None => false
  end.

Definition is_hole (e : option entry) : bool :=
  match e with
  | Some _ => false
  | None => true
  end.

(** The eight bytes of an [int64_t] key, least significant first. *)
Definition key_bytes (key : Z) : list byte :=
  map (fun i => byte_of (Z.shiftr (key mod 2 ^ 64) (8 * Z.of_nat i))) (seq 0 8).

Section Internals.

(** What the specification calls internal: the granularity of the
    capacity, the load-factor threshold (is a table of [c] slots with [e]
    entries over it?), the seed of the slot hash, and whether the
    allocator grants an array of [n] slots. *)
Variable granularity : nat.
Variable overloaded : nat -> nat -> bool.
Variable salt : Z.
Variable alloc : nat -> bool.

Definition round_up (n : nat) : nat :=
  ((n + granularity - 1) / granularity * granularity)%nat.

(** Modelled from the spec: [hashtable_create] of [hashtable.c] (missing),
    "capacity rounded up to the table's internal granularity; starts
    empty". *)
Definition hashtable_create (size : Z) : option hashtable_t :=
  let cap := round_up (Z.to_nat size) in
  if alloc cap then Some (replicate cap None) else None.

(** Modelled from the spec: slot selection of [hashtable.c] (missing),
    "keys hash via §4.1 into ... open-addressed probe sequences": the
    sequence starts at the digest of the key and visits every slot once,
    so that a cleared slot never hides a key behind it ("must allow safe
    removal without breaking subsequent lookups for other keys"). *)
Definition bucket (key : Z) : Z :=
  default 0 (hash (key_bytes key) 8 salt).

Fixpoint probe (p : option entry -> bool) (t : hashtable_t) (start : Z) (n : nat)
  : option nat :=
  match n with
  | O => None
  | S n' =>
      let idx := Z.to_nat (start mod Z.of_nat (length t)) in
      if p (t !!! idx) then Some idx else probe p t (start + 1) n'
  end.

Definition find_key (t : hashtable_t) (key : Z) : option nat :=
  probe (holds key) t (bucket key) (length t).

Definition find_empty (t : hashtable_t) (key : Z) : option nat :=
  probe is_hole t (bucket key) (length t).

Definition value_at (t : hashtable_t) (idx : nat) : Z :=
  match t !! idx with
  | Some (Some (_, v)) => v
  | _ => NULL
  end.

(** Modelled from the spec: [hashtable_get] of [hashtable.c] (missing),
    "get(key) -> value|absent". *)
Definition hashtable_get (t : hashtable_t) (key : Z) : Z :=
  match find_key t key with
  | Some idx => value_at t idx
  | None => NULL
  end.

(** Modelled from the spec: [hashtable_get_index], [hashtable_capacity]
    and [hashtable_entries] of [hashtable.c] (missing), "support linear
    scanning of the live set". *)
Definition hashtable_get_index (t : hashtable_t) (index : Z) : Z :=
  if index <? 0 then NULL else value_at t (Z.to_nat index).

Definition hashtable_capacity (t : hashtable_t) : Z := Z.of_nat (length t).

Definition hashtable_entries (t : hashtable_t) : Z :=
  Z.of_nat (length (live t)).

(** Storing a key that is not in the table, in the first hole of its
    probe sequence. *)
Definition insert_new (t : hashtable_t) (key arg : Z) : option hashtable_t :=
  idx ← find_empty t key; Some (<[idx := Some (key, arg)]> t).

(** Modelled from the spec: the resize of [hashtable.c] (missing),
    "Resize must rehash all live entries": a larger array is allocated and
    every live entry is stored again. *)
Definition rehash_step (acc : option hashtable_t) (e : option entry)
  : option hashtable_t :=
  match e with
  | Some (k, v) => t' ← acc; insert_new t' k v
  | None => acc
  end.

Definition expand (t : hashtable_t) : option hashtable_t :=
  let cap := (length t + granularity)%nat in
  if alloc cap then fold_left rehash_step t (Some (replicate cap None))
  else None.

(** Modelled from the spec: [hashtable_put] of [hashtable.c] (missing),
    "inserts or overwrites; triggers a capacity-preserving rehash/grow
    when load factor crosses an internal threshold; fails only on
    allocation failure". *)
Definition hashtable_put (t : hashtable_t) (key arg : Z) : status * hashtable_t :=
  match find_key t key with
  | Some idx => (STATUS_OK, <[idx := Some (key, arg)]> t)
  | None =>
      let grown :=
        if overloaded (S (length (live t))) (length t) then expand t
        else Some t in
      match grown ≫= (fun t' => insert_new t' key arg) with
      | Some t' => (STATUS_OK, t')
      | None => (ERR_NO_MEM, t)
      end
  end.

(** Modelled from the spec: [hashtable_remove] of [hashtable.c] (missing),
    "removes and returns prior value; absent values return a sentinel
    rather than erroring". *)
Definition hashtable_remove (t : hashtable_t) (key : Z) : Z * hashtable_t :=
  match find_key t key with
  | Some idx => (value_at t idx, <[idx := None]> t)
  | None => (NULL, t)
  end.

(** A caller's sequence of insertions, stopping at the first failure, and
    of removals. *)
Fixpoint put_all (t : hashtable_t) (kvs : list entry) : status * hashtable_t :=
  match kvs with
  | [] => (STATUS_OK, t)
  | (k, v) :: kvs =>
      match hashtable_put t k v with
      | (STATUS_OK, t') => put_all t' kvs
      | failed => failed
      end
  end.

Definition remove_all (t : hashtable_t) (keys : list Z) : hashtable_t :=
  fold_left (fun t k => (hashtable_remove t k).2) keys t.

(** The tables a caller can hold: created, then changed by insertions
    and removals only. *)
Inductive table_reachable : hashtable_t -> Prop :=
| created_table size t :
    hashtable_create size = Some t -> table_reachable t
| put_table t key arg :
    table_reachable t -> table_reachable (hashtable_put t key arg).2
| removed_table t key :
    table_reachable t -> table_reachable (hashtable_remove t key).2.

(** [key] is stored in some slot, with value [v]. *)
Definition stored (t : hashtable_t) (key v : Z) : Prop := Some (key, v) ∈ t.

End Internals.

End Hashtable.

(** A small instance of the internals, for running the table: capacity in
    steps of two slots, growth above a load of three quarters, an allocator
    that never refuses. *)
Module TableExample.

Definition overloaded (e c : nat) : bool := (3 * c <? 4 * e)%nat.
Definition alloc (n : nat) : bool := true.
Definition salt : Z := 99.

Definition bindings : list (Z * Z) :=
  [(5, 50); (17, 170); (-3, 30); (1000000007, 1); (0, 7); (8, 80)].
Definition removed : list Z := [17; 0].

Definition created : list (option (Z * Z)) := [None; None].
Definition filled : list (option (Z * Z)) :=
  [None; Some (5, 50); Some (-3, 30); Some (1000000007, 1);
   Some (0, 7); Some (17, 170); Some (8, 80); None].

End TableExample.

(** ** The tag engine (lib/libplctag.h)

    The examples call [plc_tag_create], [plc_tag_read], [plc_tag_status] and
    [plc_tag_destroy]; the engine behind [lib/libplctag.h] is not part of the
    sources at hand and is modelled from the specification, sections 3, 4.3
    and 5.  Every operation is one atomic transition of the engine context;
    the arrival of a response, the end of a connection attempt and the expiry
    of a deadline are transitions of the environment. *)

Module Engine.

(** Modelled from the spec: the status codes of [lib/libplctag.h] (missing),
    "a closed enumeration including at least OK, Pending, Timeout,
    CreateError, ..., not-found/invalid-handle, locked/not-ready". *)
Inductive error_code : Type :=
| ERR_TIMEOUT
| ERR_CREATE
| ERR_BAD_CONFIG
| ERR_NOT_FOUND
| ERR_NOT_READY
| ERR_ABORT
| ERR_REMOTE (wire : Z).

Inductive status_code : Type :=
| STATUS_OK
| STATUS_PENDING
| ERR (err : error_code).

(** Modelled from the spec: the lifecycle of a tag (engine missing),
    "Created → Connecting → Idle ⇄ {Reading, Writing} → Idle … → Destroying →
    Destroyed", with the error sub-state; a tag that is reading or writing
    carries the correlation id of its one outstanding request.  A tag that is
    not in the handle table is created no more or destroyed already. *)
Inductive lifecycle : Type :=
| Connecting
| Idle
| Reading (corr : Z)
| Writing (corr : Z)
| Failed (err : error_code).

(** Modelled from the spec: the Tag, the Connection and the engine context
    (engine missing): "Tag: owns a byte buffer ..., its current lifecycle
    state, a pointer/reference to its owning Connection"; "Connection: ... a
    monotonically increasing request-correlation counter, and the set of Tags
    currently multiplexed over it"; "an explicit engine context object owning
    the Handle Table and the Connection set". *)
Record tag : Type := mk_tag {
  tag_buffer : list byte;
  tag_conn : Z;
  tag_state : lifecycle
}.

Record connection : Type := mk_connection {
  conn_endpoint : Z;
  conn_next : Z;
  conn_pending : gmap Z Z
}.

(** A Connection is one transport channel: the engine numbers the channels
    it opens, and a tag refers to its Connection by that number.  A channel
    that was closed is not opened again; a later Connection to the same
    endpoint is another channel, with another number. *)
Record engine : Type := mk_engine {
  tags : gmap Z tag;
  conns : gmap Z connection;
  next_id : Z;
  next_conn : Z
}.

(** The engine of a fresh process.  Handles are counted from 1: the examples
    keep 0 for "no tag" ([async.c] sets [tag[i] = 0] after a failed creation
    and destroys only the tags that are not 0). *)
Definition init : engine := mk_engine ∅ ∅ 1 0.

(** The callers hold a handle in an [int32_t] ([int32_t tag] in
    [stress_api_lock.c], [int32_t tag[NUM_TAGS]] in [async.c]). *)
Definition INT32_MIN : Z := - 2 ^ 31.
Definition INT32_MAX : Z := 2 ^ 31 - 1.

(** The parsed attribute string (parsing itself is outside the engine). *)
Record config : Type := mk_config {
  endpoint : Z;
  elem_size : Z;
  elem_count : Z;
  buffer_capacity : Z
}.

(** What a call hands back: a status at once, or a wait of up to [timeout]
    milliseconds in which the caller polls the status. *)
Inductive result : Type :=
| Done (rc : status_code)
| Waiting (timeout : Z).

(** What the remote endpoint answers. *)
Inductive response : Type :=
| Reply (payload : list byte)
| Rejected (wire : Z).

Definition set_state (t : tag) (s : lifecycle) : tag :=
  mk_tag (tag_buffer t) (tag_conn t) s.

Definition set_tags (e : engine) (ts : gmap Z tag) : engine :=
  mk_engine ts (conns e) (next_id e) (next_conn e).

Definition set_conns (e : engine) (cs : gmap Z connection) : engine :=
  mk_engine (tags e) cs (next_id e) (next_conn e).

Definition empty_connection (ep : Z) : connection := mk_connection ep 0 ∅.

Definition serves (ep : Z) (p : Z * connection) : bool := conn_endpoint p.2 =? ep.

(** The Connection that is open to endpoint [ep], if there is one. *)
Definition find_connection (ep : Z) (cs : gmap Z connection) : option Z :=
  fst <$> List.find (serves ep) (map_to_list cs).

(** The Connection of an endpoint, "creating one if no existing Connection
    matches the endpoint": its number, and the engine once it is there. *)
Definition attached (ep : Z) (e : engine) : Z :=
  default (next_conn e) (find_connection ep (conns e)).

Definition attach (ep : Z) (e : engine) : engine :=
  match find_connection ep (conns e) with
  | Some _ => e
  | None =>
      mk_engine (tags e) (<[next_conn e := empty_connection ep]> (conns e))
                (next_id e) (next_conn e + 1)
  end.

(** The correlation id the next request on Connection [c] gets. *)
Definition next_corr (c : Z) (cs : gmap Z connection) : Z :=
  from_option conn_next 0 (cs !! c).

(** Queueing a request of tag [h] on Connection [c]. *)
Definition enqueue (c h : Z) (cs : gmap Z connection) : gmap Z connection :=
  match cs !! c with
  | Some cn =>
      <[c := mk_connection (conn_endpoint cn) (conn_next cn + 1)
                           (<[conn_next cn := h]> (conn_pending cn))]> cs
  | None => cs
  end.

(** Forgetting the request [corr] of Connection [c]: a response that still
    arrives for it finds nothing to apply to. *)
Definition retire (c corr : Z) (cs : gmap Z connection) : gmap Z connection :=
  match cs !! c with
  | Some cn =>
      <[c := mk_connection (conn_endpoint cn) (conn_next cn)
                           (delete corr (conn_pending cn))]> cs
  | None => cs
  end.

Definition busy (s : lifecycle) : bool :=
  match s with
  | Connecting | Reading _ | Writing _ => true
  | Idle | Failed _ => false
  end.

Definition outstanding (s : lifecycle) : option Z :=
  match s with
  | Reading corr | Writing corr => Some corr
  | _ => None
  end.

(** Modelled from the spec: the integer a status code is returned as
    ([lib/libplctag.h] missing), "negative values are never valid handles
    and double as error codes from creation calls".  Every error code is a
    negative number; OK and Pending are not.  The examples rely on the same:
    they take a result of [plc_tag_create] below 0 for an error code and
    compare a status with [PLCTAG_STATUS_OK]. *)
Definition encode (rc : status_code) : Z :=
  match rc with
  | STATUS_OK => 0
  | STATUS_PENDING => 1
  | ERR ERR_ABORT => -1
  | ERR ERR_BAD_CONFIG => -2
  | ERR ERR_CREATE => -11
  | ERR ERR_NOT_FOUND => -19
  | ERR (ERR_REMOTE _) => -29
  | ERR ERR_TIMEOUT => -32
  | ERR ERR_NOT_READY => -39
  end.

(** Modelled from the spec: [plc_tag_create] (engine missing), "create
    (attributes, timeout) -> Handle|ErrorCode: ... allocates a Tag,
    allocates/attaches a Connection ..., registers the handle in the Handle
    Table, and begins connecting.  If timeout is 0, returns immediately ...; if
    timeout > 0, blocks ... until ready, error, or timeout elapses"; "element
    count × element size must match the buffer capacity exactly, else creation
    fails with a configuration error".  [attributes] is [None] for a malformed
    string; [waited] is how the wait of a blocking call ends ([None]: ready).
    A handle is the next number that was never given out, which makes it
    "process-unique" and "never reused while any reference ... is
    outstanding"; it has to fit the [int32_t] of the callers, and once these
    numbers are used up a creation fails with the creation error.  A creation
    whose wait ends in an error has used a handle and, if it opened one, a
    Connection, and has released both. *)
Definition plc_tag_create (e : engine) (attributes : option config) (timeout : Z)
    (waited : option error_code) : Z * engine :=
  match attributes with
  | None => (encode (ERR ERR_BAD_CONFIG), e)
  | Some cfg =>
      if (0 <=? buffer_capacity cfg)
         && (elem_count cfg * elem_size cfg =? buffer_capacity cfg) then
        if next_id e <=? INT32_MAX then
          let h := next_id e in
          let buf := replicate (Z.to_nat (buffer_capacity cfg)) x00 in
          let c := attached (endpoint cfg) e in
          let e1 := attach (endpoint cfg) e in
          let registered s :=
            mk_engine (<[h := mk_tag buf c s]> (tags e)) (conns e1) (h + 1)
                      (next_conn e1) in
          if timeout =? 0 then (h, registered Connecting)
          else
            match waited with
            | None => (h, registered Idle)
            | Some err =>
                (encode (ERR err), mk_engine (tags e) (conns e) (h + 1) (next_conn e1))
            end
        else (encode (ERR ERR_CREATE), e)
      else (encode (ERR ERR_BAD_CONFIG), e)
  end.

Definition is_ok (rc : status_code) : bool :=
  match rc with
  | STATUS_OK => true
  | _ => false
  end.

(** Issuing a request of tag [h], which is [t]: it gets the next correlation
    id of its connection. *)
Definition issue (e : engine) (h : Z) (t : tag) (kind : Z -> lifecycle) (timeout : Z)
  : result * engine :=
  let corr := next_corr (tag_conn t) (conns e) in
  (if timeout =? 0 then Done STATUS_PENDING else Waiting timeout,
   mk_engine (<[h := set_state t (kind corr)]> (tags e))
             (enqueue (tag_conn t) h (conns e))
             (next_id e) (next_conn e)).

(** Modelled from the spec: [plc_tag_read] (engine missing), "fails with
    ErrorCode::NotReady if a request is already outstanding on this Tag;
    otherwise serializes a read request, enqueues it on the Connection, and
    either returns Pending (timeout=0) or blocks up to timeout milliseconds
    polling internal status"; "Using a handle afterward must fail with a
    not-found error". *)
Definition plc_tag_read (e : engine) (h timeout : Z) : result * engine :=
  match tags e !! h with
  | None => (Done (ERR ERR_NOT_FOUND), e)
  | Some t =>
      if busy (tag_state t) then (Done (ERR ERR_NOT_READY), e)
      else issue e h t Reading timeout
  end.

(** Modelled from the spec: [plc_tag_write] (engine missing), "same contract
    as read, but serializes the Tag's current buffer contents as the request
    payload". *)
Definition plc_tag_write (e : engine) (h timeout : Z) : result * engine :=
  match tags e !! h with
  | None => (Done (ERR ERR_NOT_FOUND), e)
  | Some t =>
      if busy (tag_state t) then (Done (ERR ERR_NOT_READY), e)
      else issue e h t Writing timeout
  end.

(** Modelled from the spec: [plc_tag_status] (engine missing), "non-blocking;
    returns the Tag's last-known terminal or pending status; never mutates
    state". *)
Definition plc_tag_status (e : engine) (h : Z) : status_code :=
  match tags e !! h with
  | None => ERR ERR_NOT_FOUND
  | Some t =>
      match tag_state t with
      | Idle => STATUS_OK
      | Failed err => ERR err
      | Connecting | Reading _ | Writing _ => STATUS_PENDING
      end
  end.

(** Modelled from the spec: [plc_tag_abort] (engine missing), "requests
    cancellation of an outstanding request; the Connection must
    discard/ignore a late response matching the aborted correlation id rather
    than applying it to the Tag's buffer". *)
Definition plc_tag_abort (e : engine) (h : Z) : status_code * engine :=
  match tags e !! h with
  | None => (ERR ERR_NOT_FOUND, e)
  | Some t =>
      match outstanding (tag_state t) with
      | Some corr =>
          (STATUS_OK,
           mk_engine (<[h := set_state t (Failed ERR_ABORT)]> (tags e))
                     (retire (tag_conn t) corr (conns e))
                     (next_id e) (next_conn e))
      | None => (STATUS_OK, e)
      end
  end.

(** Is Connection [c] referenced by a tag of [ts]? *)
Definition referenced (c : Z) (ts : gmap Z tag) : bool :=
  bool_decide (map_Exists (fun _ t => tag_conn t = c) ts).

(** Modelled from the spec: [plc_tag_destroy] (engine missing), "waits for any
    outstanding request to resolve or forcibly aborts it ..., detaches from
    its Connection (closing the Connection if it becomes unreferenced),
    removes the handle from the Handle Table, and releases the Tag".  The
    transition is the release itself, at the end of the wait. *)
Definition plc_tag_destroy (e : engine) (h : Z) : status_code * engine :=
  match tags e !! h with
  | None => (ERR ERR_NOT_FOUND, e)
  | Some t =>
      let ts := delete h (tags e) in
      let cs :=
        match outstanding (tag_state t) with
        | Some corr => retire (tag_conn t) corr (conns e)
        | None => conns e
        end in
      let cs := if referenced (tag_conn t) ts then cs else delete (tag_conn t) cs in
      (STATUS_OK, mk_engine ts cs (next_id e) (next_conn e))
  end.

(** The buffer after a reply: the payload, cut or completed to the size of
    the buffer. *)
Definition fill (buf payload : list byte) : list byte :=
  take (length buf) (payload ++ drop (length payload) buf).

Definition receive (t : tag) (r : response) : tag :=
  match r, tag_state t with
  | Reply payload, Reading _ => mk_tag (fill (tag_buffer t) payload) (tag_conn t) Idle
  | Reply _, Writing _ => set_state t Idle
  | Rejected wire, (Reading _ | Writing _) => set_state t (Failed (ERR_REMOTE wire))
  | _, _ => t
  end.

(** Modelled from the spec: the arrival of a response on a Connection
    (engine missing).  A response arrives on the transport channel of one
    Connection, [c]; what arrives on a channel that is closed is discarded.
    The response is matched by correlation id; one that matches no queued
    request is discarded.  [None] is the failure the specification rules
    out: the response is applied to a tag that has been released. *)
Definition deliver (e : engine) (c corr : Z) (r : response) : option engine :=
  match conns e !! c with
  | None => Some e
  | Some cn =>
      match conn_pending cn !! corr with
      | None => Some e
      | Some h =>
          t ← tags e !! h;
          Some (mk_engine (<[h := receive t r]> (tags e))
                          (retire c corr (conns e))
                          (next_id e) (next_conn e))
      end
  end.

(** The end of a connection attempt, and the expiry of the deadline of an
    outstanding request. *)
Definition connected (e : engine) (h : Z) (outcome : option error_code) : engine :=
  match tags e !! h with
  | Some t =>
      match tag_state t with
      | Connecting =>
          set_tags e (<[h := set_state t (from_option Failed Idle outcome)]> (tags e))
      | _ => e
      end
  | None => e
  end.

Definition expire (e : engine) (h : Z) : engine :=
  match tags e !! h with
  | Some t =>
      match outstanding (tag_state t) with
      | Some corr =>
          mk_engine (<[h := set_state t (Failed ERR_TIMEOUT)]> (tags e))
                    (retire (tag_conn t) corr (conns e))
                    (next_id e) (next_conn e)
      | None => e
      end
  | None => e
  end.

(** [open_tag] of [examples/stress_api_lock.c], with [DATA_TIMEOUT]; the
    creation is a failure exactly when its result is negative. *)
Definition DATA_TIMEOUT : Z := 1500.

Definition open_tag (e : engine) (tag_str : option config) (waited : option error_code)
  : Z * engine :=
  let '(tag, e) := plc_tag_create e tag_str DATA_TIMEOUT waited in
  if tag <? 0 then (encode (ERR ERR_CREATE), e)
  else
    let rc := plc_tag_status e tag in
    if negb (is_ok rc) then (encode rc, (plc_tag_destroy e tag).2)
    else (tag, e).

(** One transition of the engine: a call of the API or an event of the
    environment, in any order. *)
Inductive step : engine -> engine -> Prop :=
| step_create e attributes timeout waited :
    step e (plc_tag_create e attributes timeout waited).2
| step_read e h timeout : step e (plc_tag_read e h timeout).2
| step_write e h timeout : step e (plc_tag_write e h timeout).2
| step_abort e h : step e (plc_tag_abort e h).2
| step_destroy e h : step e (plc_tag_destroy e h).2
| step_deliver e c corr r e' : deliver e c corr r = Some e' -> step e e'
| step_connected e h outcome : step e (connected e h outcome)
| step_expire e h : step e (expire e h).

Definition reachable (e : engine) : Prop := rtc step init e.

(** A tag of one 4-byte element on endpoint 7, created ready, and the engine
    after a read was issued on it: the tag is on Connection 0, the first the
    engine opened, and its request has the correlation id 0. *)
Definition example_config : config := mk_config 7 4 1 4.

Definition example_created : engine :=
  (plc_tag_create init (Some example_config) 5000 None).2.

Definition example_reading : engine := (plc_tag_read example_created 1 0).2.

Definition example_tag : tag := mk_tag [x00; x00; x00; x00] 0 (Reading 0).

(** The same tag aborted and destroyed, which closes Connection 0; then a
    second tag on the same endpoint, which gets Connection 1, with a read
    issued on it: the correlation id of that request is 0 again. *)
Definition example_destroyed : engine :=
  (plc_tag_destroy (plc_tag_abort example_reading 1).2 1).2.

Definition example_second : engine :=
  (plc_tag_read (plc_tag_create example_destroyed (Some example_config) 5000 None).2 2 0).2.

End Engine.

(** ** hash.c: the other macros *)

(** [hashsize(n)] is [((ub4)1<<(n))] and [hashmask(n)] is [(hashsize(n)-1)]. *)
Definition hashsize (n : Z) : Z := U32.shl 1 n.
Definition hashmask (n : Z) : Z := U32.sub (hashsize n) 1.

(** The three kinds of line of [mix]: [a -= b; a -= c; a ^= (c>>k)], the same
    for [b] with [a<<k], and for [c] with [b>>k].  [mix] is nine of them. *)
Definition line_a (k : Z) (s : acc) : acc :=
  let '(a, b, c) := s in
  (U32.xor (U32.sub (U32.sub a b) c) (U32.shr c k), b, c).

Definition line_b (k : Z) (s : acc) : acc :=
  let '(a, b, c) := s in
  (a, U32.xor (U32.sub (U32.sub b c) a) (U32.shl a k), c).

Definition line_c (k : Z) (s : acc) : acc :=
  let '(a, b, c) := s in
  (a, b, U32.xor (U32.sub (U32.sub c a) b) (U32.shr b k)).

(** Each line run backward: the exclusive or is undone by itself, the
    subtractions by additions. *)
Definition back_a (k : Z) (s : acc) : acc :=
  let '(a, b, c) := s in
  (U32.add (U32.add (U32.xor a (U32.shr c k)) c) b, b, c).

Definition back_b (k : Z) (s : acc) : acc :=
  let '(a, b, c) := s in
  (a, U32.add (U32.add (U32.xor b (U32.shl a k)) a) c, c).

Definition back_c (k : Z) (s : acc) : acc :=
  let '(a, b, c) := s in
  (a, b, U32.add (U32.add (U32.xor c (U32.shr b k)) b) a).

(** [mix] run backward, last line first. *)
Definition unmix (s : acc) : acc :=
  back_a 13 (back_b 8 (back_c 13 (back_a 12 (back_b 16 (back_c 5
    (back_a 3 (back_b 10 (back_c 15 s)))))))).

Definition in_range3 (s : acc) : Prop :=
  U32.in_range s.1.1 /\ U32.in_range s.1.2 /\ U32.in_range s.2.

(** The [mix2(a,b,c)] macro, "same, but slower, works on systems that might
    have 8 byte ub4's", for a [ub4] of [w] bits: the arithmetic wraps modulo
    [2^w] and the macro masks with [0xffffffff] where it needs 32 bits. *)
Module Wide.

Definition sub (w x y : Z) : Z := (x - y) mod 2 ^ w.
Definition shl (w x n : Z) : Z := Z.shiftl x n mod 2 ^ w.
Definition mask (x : Z) : Z := Z.land x 0xffffffff.

End Wide.

Definition mix2 (w : Z) (s : acc) : acc :=
  let '(a, b, c) := s in
  let a := Wide.sub w a b in let a := Wide.sub w a c in
  let a := Z.lxor a (Z.shiftr c 13) in
  let b := Wide.sub w b c in let b := Wide.sub w b a in
  let b := Z.lxor b (Wide.shl w a 8) in
  let c := Wide.sub w c a in let c := Wide.sub w c b in
  let c := Z.lxor c (Z.shiftr (Wide.mask b) 13) in
  let a := Wide.sub w a b in let a := Wide.sub w a c in
  let a := Z.lxor a (Z.shiftr (Wide.mask c) 12) in
  let b := Wide.sub w b c in let b := Wide.sub w b a in
  let b := Wide.mask (Z.lxor b (Wide.shl w a 16)) in
  let c := Wide.sub w c a in let c := Wide.sub w c b in
  let c := Wide.mask (Z.lxor c (Z.shiftr b 5)) in
  let a := Wide.sub w a b in let a := Wide.sub w a c in
  let a := Wide.mask (Z.lxor a (Z.shiftr c 3)) in
  let b := Wide.sub w b c in let b := Wide.sub w b a in
  let b := Wide.mask (Z.lxor b (Wide.shl w a 10)) in
  let c := Wide.sub w c a in let c := Wide.sub w c b in
  let c := Wide.mask (Z.lxor c (Z.shiftr b 15)) in
  (a, b, c).

(** The lines of [mix2]: those of [mix] on [w]-bit words, with the operand of
    the right shift masked ([inner]) or the whole result masked ([outer]). *)
Definition masked (on : bool) (x : Z) : Z := if on then Wide.mask x else x.

Definition wide_a (w : Z) (outer inner : bool) (k : Z) (s : acc) : acc :=
  let '(a, b, c) := s in
  (masked outer (Z.lxor (Wide.sub w (Wide.sub w a b) c) (Z.shiftr (masked inner c) k)),
   b, c).

Definition wide_b (w : Z) (outer : bool) (k : Z) (s : acc) : acc :=
  let '(a, b, c) := s in
  (a, masked outer (Z.lxor (Wide.sub w (Wide.sub w b c) a) (Wide.shl w a k)), c).

Definition wide_c (w : Z) (outer inner : bool) (k : Z) (s : acc) : acc :=
  let '(a, b, c) := s in
  (a, b,
   masked outer (Z.lxor (Wide.sub w (Wide.sub w c a) b) (Z.shiftr (masked inner b) k))).

(** [p], on wide words, stands for the 32-bit [q]: the low 32 bits agree, and
    the components flagged exact are equal. *)
Definition stands (ea eb ec : bool) (p q : acc) : Prop :=
  (U32.wrap p.1.1 = q.1.1 /\ U32.wrap p.1.2 = q.1.2 /\ U32.wrap p.2 = q.2) /\
  ((ea = true -> p.1.1 = q.1.1) /\ (eb = true -> p.1.2 = q.1.2) /\
   (ec = true -> p.2 = q.2)).

(** ** The example programs *)

(** [int32_t] arithmetic: the value of an integer as a signed 32-bit word. *)
Module I32.

Definition wrap (x : Z) : Z := (x + 2 ^ 31) mod 2 ^ 32 - 2 ^ 31.
Definition in_range (x : Z) : Prop := - 2 ^ 31 <= x < 2 ^ 31.

End I32.

(** [examples/stress_api_lock.c] *)
Module StressApiLock.

Definition MAX_THREADS : Z := 100.

(** The update of [test_tag]:
    [value = (value >= (int32_t)500 ? (int32_t)0 : value + (int32_t)1)]. *)
Definition next_value (value : Z) : Z :=
  if 500 <=? value then 0 else I32.wrap (value + 1).

(** The loop [for(int tid=0; tid < num_threads && tid < MAX_THREADS; tid++)]
    of [main], which heads both the creation and the joining of the threads:
    the values of [tid] for which the body runs ([None]: out of fuel). *)
Fixpoint thread_loop (fuel : nat) (tid num_threads : Z) : option (list Z) :=
  match fuel with
  | O => None
  | S fuel =>
      if (tid <? num_threads) && (tid <? MAX_THREADS)
      then (cons tid) <$> thread_loop fuel (I32.wrap (tid + 1)) num_threads
      else Some []
  end.

Section Library.

(** The constants of [lib/libplctag.h], which is not at hand. *)
Variable PLCTAG_STATUS_OK : Z.
Variable PLCTAG_ERR_CREATE : Z.

(** What [open_tag] does with the library: the handles it destroys. *)
Inductive call : Type := Destroy (tag : Z).

(** [open_tag], given what [plc_tag_create] returned ([created]) and what
    [plc_tag_status] returns for that tag ([status]): the value it returns
    and its calls of [plc_tag_destroy]. *)
Definition open_tag (created status : Z) : Z * list call :=
  let tag := created in
  if tag <? 0 then (PLCTAG_ERR_CREATE, [])
  else
    let rc := status in
    if negb (rc =? PLCTAG_STATUS_OK) then (rc, [Destroy tag])
    else (tag, []).

(** The test of [main] on what [open_tag] returned: [if(tag < 0)] gives
    up. *)
Definition main_accepts (tag : Z) : bool := negb (tag <? 0).

End Library.

End StressApiLock.

(** [examples/multithread_plc5_dhp.c] *)
Module Plc5Dhp.

Definition MAX_THREADS : Z := 5.

(** The loop [for(thread_id=0; thread_id < num_threads; thread_id++)] of
    [main]: the values of [thread_id] for which a thread is created ([None]:
    out of fuel). *)
Fixpoint create_loop (fuel : nat) (thread_id num_threads : Z) : option (list Z) :=
  match fuel with
  | O => None
  | S fuel =>
      if thread_id <? num_threads
      then (cons thread_id) <$> create_loop fuel (I32.wrap (thread_id + 1)) num_threads
      else Some []
  end.

(** [main] from the check of [num_threads] on, given what [plc_tag_create]
    and [plc_tag_status] return: it returns before any thread is created
    when [num_threads < 1 || num_threads > MAX_THREADS], when the creation of
    the tag failed ([tag < 0]) and when its status is not
    [PLCTAG_STATUS_OK] (a constant of [lib/libplctag.h], which is not at
    hand); it creates the threads otherwise. *)
Definition created_threads (PLCTAG_STATUS_OK : Z) (fuel : nat)
    (num_threads created status : Z) : option (list Z) :=
  if (num_threads <? 1) || (MAX_THREADS <? num_threads) then Some []
  else if created <? 0 then Some []
  else if negb (status =? PLCTAG_STATUS_OK) then Some []
  else create_loop fuel 0 num_threads.

End Plc5Dhp.

(** [examples/async.c] *)
Module Async.

(** One turn of the creation loop of [main], given what [plc_tag_create]
    returned: [tag[i]] and [failed] afterwards. *)
Definition create_step (st : list Z * bool) (created : Z) : list Z * bool :=
  let '(tag, failed) := st in
  if created <? 0 then (tag ++ [0], true) else (tag ++ [created], failed).

Definition create_loop (created : list Z) : list Z * bool :=
  fold_left create_step created ([], false).

(** The last loop of [main]: the handles given to [plc_tag_destroy],
    [if(tag[i] != 0)]. *)
Definition destroyed (tag : list Z) : list Z :=
  filter (fun t => t <> 0) tag.

End Async.
(** * Properties of the hash *)

(** ** Arithmetic of [uint32_t] *)

Lemma ub1_range x : 0 <= ub1 x < 256.
Proof. unfold ub1. pose proof (Byte.to_N_bounded x). lia. Qed.

Lemma wrap_range x : U32.in_range (U32.wrap x).
Proof. unfold U32.in_range, U32.wrap, U32.modulus. apply Z.mod_pos_bound. lia. Qed.

Lemma wrap_small x : U32.in_range x -> U32.wrap x = x.
Proof. unfold U32.in_range, U32.wrap. intros. apply Z.mod_small. lia. Qed.

Lemma wrap_wrap x : U32.wrap (U32.wrap x) = U32.wrap x.
Proof. apply wrap_small, wrap_range. Qed.

Lemma add_wrap_l x y : U32.add (U32.wrap x) y = U32.add x y.
Proof. unfold U32.add, U32.wrap. apply Zplus_mod_idemp_l. Qed.

Lemma add_wrap_r x y : U32.add x (U32.wrap y) = U32.add x y.
Proof. unfold U32.add, U32.wrap. apply Zplus_mod_idemp_r. Qed.

Lemma add_add_l x y z : U32.add (U32.add x y) z = U32.wrap (x + y + z).
Proof. unfold U32.add, U32.wrap. rewrite Zplus_mod_idemp_l. reflexivity. Qed.

Lemma shl_byte x sh : 0 <= sh <= 24 -> U32.shl (ub1 x) sh = ub1 x * 2 ^ sh.
Proof.
  intros Hsh. unfold U32.shl. rewrite Z.shiftl_mul_pow2 by lia.
  apply wrap_small. pose proof (ub1_range x).
  assert (0 < 2 ^ sh <= 2 ^ 24) by (split; [apply Z.pow_pos_nonneg; lia | apply Z.pow_le_mono_r; lia]).
  unfold U32.in_range, U32.modulus. change (2 ^ 24) with 16777216 in *. change (2^32) with 4294967296. nia.
Qed.

Lemma add_small x y : U32.in_range (x + y) -> U32.add x y = x + y.
Proof. apply wrap_small. Qed.

Lemma word_of_le k0 k1 k2 k3 : word_of k0 k1 k2 k3 = Spec.le [k0; k1; k2; k3].
Proof.
  pose proof (ub1_range k0); pose proof (ub1_range k1);
  pose proof (ub1_range k2); pose proof (ub1_range k3).
  unfold word_of. rewrite !shl_byte by lia.
  change (2 ^ 8) with 256. change (2 ^ 16) with 65536. change (2 ^ 24) with 16777216.
  assert (Hr : forall z, 0 <= z < 4294967296 -> U32.in_range z) by (intros; assumption).
  rewrite (add_small (ub1 k0)) by (apply Hr; lia).
  rewrite (add_small (ub1 k0 + _)) by (apply Hr; lia).
  rewrite add_small by (apply Hr; lia).
  simpl Spec.le. lia.
Qed.

Lemma hash_loop_exit k s len : len < 12 -> hash_loop k s len = Some (k, s, len).
Proof.
  intros H. assert (E : (12 <=? len) = false) by (apply Z.leb_gt; lia).
  destruct k; simpl; rewrite E; reflexivity.
Qed.

Lemma hash_loop_short k s len :
  (length k < 12)%nat -> 12 <= len -> hash_loop k s len = None.
Proof.
  intros Hk H. assert (E : (12 <=? len) = true) by (apply Z.leb_le; lia).
  do 12 (destruct k as [|? k]; [simpl; rewrite E; reflexivity|]).
  simpl in Hk. lia.
Qed.

Lemma hash_loop_step blk k s len :
  length blk = 12%nat -> 12 <= len ->
  hash_loop (blk ++ k) s len = hash_loop k (Spec.block blk s) (U32.sub len 12).
Proof.
  intros Hb H. assert (E : (12 <=? len) = true) by (apply Z.leb_le; lia).
  do 12 (destruct blk as [|? blk]; [discriminate Hb|]).
  destruct blk; [|discriminate Hb].
  destruct s as [[sa sb] sc].
  cbn [app hash_loop]. rewrite E.
  unfold Spec.block. cbn [take drop firstn skipn]. rewrite !word_of_le. reflexivity.
Qed.

Lemma blocks_rest q : forall k s, (Spec.blocks q k s).1 = drop (12 * q) k.
Proof.
  induction q as [|q IH]; intros k s.
  - reflexivity.
  - cbn [Spec.blocks]. rewrite IH, drop_drop. f_equal. lia.
Qed.

Lemma hash_loop_blocks q : forall k s len,
  U32.in_range len -> Z.to_nat (len / 12) = q ->
  hash_loop k s len =
    if decide (12 * q <= length k)%nat
    then Some (Spec.blocks q k s, len mod 12)
    else None.
Proof.
  unfold U32.in_range, U32.modulus. change (2 ^ 32) with 4294967296.
  induction q as [|q IH]; intros k s len Hr Hq.
  - assert (len < 12).
    { assert (0 <= len / 12) by (apply Z.div_pos; lia).
      assert (E0 : len / 12 = 0) by lia. apply Z.div_small_iff in E0; lia. }
    rewrite hash_loop_exit by lia. rewrite decide_True by lia.
    rewrite Z.mod_small by lia. reflexivity.
  - assert (Hlen : 12 <= len).
    { destruct (Z_lt_le_dec len 12) as [Hlt|]; [|lia].
      rewrite Z.div_small in Hq by lia. discriminate Hq. }
    destruct (decide (12 <= length k)%nat) as [Hk|Hk].
    + rewrite <- (take_drop 12 k) at 1.
      rewrite hash_loop_step by (rewrite ?length_take; lia).
      assert (Es : U32.sub len 12 = len - 12).
      { apply wrap_small. unfold U32.in_range, U32.modulus. change (2 ^ 32) with 4294967296. lia. }
      rewrite Es.
      assert (Ed : len / 12 = (len - 12) / 12 + 1).
      { replace len with ((len - 12) + 1 * 12) at 1 by lia. apply Z.div_add. lia. }
      assert (Em : len mod 12 = (len - 12) mod 12).
      { replace len with ((len - 12) + 1 * 12) at 1 by lia. apply Z.mod_add. lia. }
      assert (0 <= (len - 12) / 12) by (apply Z.div_pos; lia).
      rewrite (IH _ _ (len - 12)) by lia.
      rewrite length_drop. cbn [Spec.blocks]. rewrite Em.
      destruct (decide (12 * q <= length k - 12)%nat);
        [rewrite decide_True by lia | rewrite decide_False by lia]; reflexivity.
    + rewrite hash_loop_short by lia. rewrite decide_False by lia. reflexivity.
Qed.

Lemma wrap_plus_l x y : U32.wrap (U32.wrap x + y) = U32.wrap (x + y).
Proof. unfold U32.wrap. apply Zplus_mod_idemp_l. Qed.

Lemma add_assoc x y z : U32.add (U32.add x y) z = U32.add x (y + z).
Proof. unfold U32.add. rewrite wrap_plus_l. f_equal. lia. Qed.

Lemma shifted_mul sh x : 0 <= sh <= 24 -> shifted sh x = ub1 x * 2 ^ sh.
Proof. apply shl_byte. Qed.

Ltac eval_pow2 :=
  repeat match goal with
         | |- context [2 ^ ?e] =>
             let v := eval vm_compute in (2 ^ e) in change (2 ^ e) with v
         end.

Ltac acc_eq :=
  unfold bare; rewrite ?shifted_mul by lia; eval_pow2;
  rewrite ?add_assoc; f_equal; lia.

Lemma hash_switch_fold r k s :
  0 <= r < 12 ->
  hash_switch k s r =
    if decide (Z.to_nat r <= length k)%nat
    then Some (Spec.fold_rest (take (Z.to_nat r) k) s)
    else None.
Proof.
  intros Hr. destruct s as [[a b] c].
  assert (Hc : r = 0 \/ r = 1 \/ r = 2 \/ r = 3 \/ r = 4 \/ r = 5 \/ r = 6 \/
               r = 7 \/ r = 8 \/ r = 9 \/ r = 10 \/ r = 11) by lia.
  unfold hash_switch, arm, reaches.
  repeat (destruct Hc as [->|Hc]); try subst r;
    cbn [Z.leb Z.compare Pos.compare Pos.compare_cont andb Z.to_nat Pos.to_nat Pos.iter_op Init.Nat.add];
    do 11 (try (destruct k as [|? k];
                [cbn [lookup list_lookup mbind option_bind length]; try reflexivity | ])).
  all: cbn [lookup list_lookup mbind option_bind length].
  all: try (rewrite decide_False by (cbn [length]; lia); reflexivity).
  all: rewrite decide_True by (cbn [length]; lia).
  all: unfold Spec.fold_rest; cbn [take firstn imap fold_left Spec.fold_byte Nat.ltb Nat.leb compose].
  all: f_equal; repeat (apply (f_equal2 pair)); try reflexivity.
  all: cbn [Nat.sub Init.Nat.add Z.of_nat Pos.of_succ_nat Pos.succ Z.mul Pos.mul Pos.add].
  all: acc_eq.
Qed.

Lemma in_range_bounds x : U32.in_range x <-> 0 <= x < 4294967296.
Proof. reflexivity. Qed.

Lemma xor_range x y : U32.in_range x -> U32.in_range y -> U32.in_range (U32.xor x y).
Proof.
  rewrite !in_range_bounds. intros Hx Hy. unfold U32.xor.
  assert (Hn : 0 <= Z.lxor x y) by (apply Z.lxor_nonneg; lia).
  split; [exact Hn|].
  destruct (Z.eq_dec (Z.lxor x y) 0) as [->|Hz]; [lia|].
  change 4294967296 with (2 ^ 32). apply Z.log2_lt_pow2; [lia|].
  eapply Z.le_lt_trans; [apply Z.log2_lxor; lia|].
  apply Z.max_lub_lt.
  - destruct (Z.eq_dec x 0) as [->|]; [reflexivity|]. apply Z.log2_lt_pow2; lia.
  - destruct (Z.eq_dec y 0) as [->|]; [reflexivity|]. apply Z.log2_lt_pow2; lia.
Qed.

Lemma shr_range x n : 0 <= n -> U32.in_range x -> U32.in_range (U32.shr x n).
Proof.
  rewrite !in_range_bounds. intros Hn Hx. unfold U32.shr.
  rewrite Z.shiftr_div_pow2 by lia.
  assert (0 < 2 ^ n) by (apply Z.pow_pos_nonneg; lia).
  split; [apply Z.div_pos; lia|].
  apply Z.div_lt_upper_bound; nia.
Qed.

Lemma sub_range x y : U32.in_range (U32.sub x y).
Proof. apply wrap_range. Qed.

Lemma add_range x y : U32.in_range (U32.add x y).
Proof. apply wrap_range. Qed.

Lemma shl_range x n : U32.in_range (U32.shl x n).
Proof. apply wrap_range. Qed.

Lemma mix_range s :
  U32.in_range (mix s).1.1 /\ U32.in_range (mix s).1.2 /\ U32.in_range (mix s).2.
Proof.
  destruct s as [[a b] c]. unfold mix. cbn [fst snd].
  repeat split;
    repeat first [ apply xor_range | apply sub_range | apply shl_range
                 | apply shr_range; [lia|] ].
Qed.

Lemma hash_as_spec k n s : hash k n s = Spec.hash_spec k (U32.wrap n) s.
Proof.
  pose proof (wrap_range n) as Hr. set (len := U32.wrap n) in *.
  pose proof (proj1 (in_range_bounds _) Hr) as Hb.
  assert (Hq : 0 <= len / 12) by (apply Z.div_pos; lia).
  assert (Hm : 0 <= len mod 12 < 12) by (apply Z.mod_pos_bound; lia).
  assert (Hd : len = 12 * (len / 12) + len mod 12) by (apply Z.div_mod; lia).
  unfold hash, Spec.hash_spec. fold len.
  rewrite (hash_loop_blocks (Z.to_nat (len / 12))) by auto.
  pose proof (blocks_rest (Z.to_nat (len / 12)) k (golden, golden, s)) as Hrest.
  destruct (Spec.blocks (Z.to_nat (len / 12)) k (golden, golden, s))
    as [rest [[a b] c]] eqn:Eb.
  cbn [fst] in Hrest.
  destruct (decide (12 * Z.to_nat (len / 12) <= length k)%nat) as [Hk|Hk].
  - cbn [mbind option_bind]. rewrite hash_switch_fold by lia.
    assert (Hl : length rest = (length k - 12 * Z.to_nat (len / 12))%nat)
      by (rewrite Hrest, length_drop; reflexivity).
    destruct (decide (Z.to_nat (len mod 12) <= length rest)%nat) as [Ht|Ht].
    + rewrite decide_True by lia. reflexivity.
    + rewrite decide_False by lia. reflexivity.
  - rewrite decide_False by lia. reflexivity.
Qed.

Lemma blocks_take q : forall k s m,
  (12 * q <= m)%nat ->
  Spec.blocks q (take m k) s =
    (take (m - 12 * q) (Spec.blocks q k s).1, (Spec.blocks q k s).2).
Proof.
  induction q as [|q IH]; intros k s m Hm.
  - cbn [Spec.blocks fst snd]. f_equal. f_equal. lia.
  - cbn [Spec.blocks].
    rewrite take_take, Nat.min_l by lia.
    replace (drop 12 (take m k)) with (take (m - 12) (drop 12 k))
      by (rewrite take_drop_commute; do 2 f_equal; lia).
    rewrite IH by lia. do 2 f_equal. lia.
Qed.

(** The digest reads the first [n] bytes of the key only. *)
Lemma spec_hash_take k n s :
  0 <= n -> Spec.hash_spec (take (Z.to_nat n) k) n s = Spec.hash_spec k n s.
Proof.
  intros Hn.
  assert (Hq : 0 <= n / 12) by (apply Z.div_pos; lia).
  assert (Hm : 0 <= n mod 12 < 12) by (apply Z.mod_pos_bound; lia).
  assert (Hd : n = 12 * (n / 12) + n mod 12) by (apply Z.div_mod; lia).
  unfold Spec.hash_spec. rewrite length_take.
  rewrite blocks_take by lia.
  destruct (Spec.blocks (Z.to_nat (n / 12)) k (golden, golden, s))
    as [rest [[a b] c]].
  cbn [fst snd]. rewrite take_take.
  rewrite (Nat.min_l (Z.to_nat (n mod 12))) by lia.
  destruct (decide (n <= Z.of_nat (length k))).
  - rewrite decide_True by lia. reflexivity.
  - rewrite decide_False by lia. reflexivity.
Qed.

Lemma spec_hash_total k n s :
  0 <= n <= Z.of_nat (length k) ->
  exists d, Spec.hash_spec k n s = Some d /\ U32.in_range d.
Proof.
  intros Hn. unfold Spec.hash_spec. rewrite decide_True by lia.
  destruct (Spec.blocks _ _ _) as [rest [[a b] c]].
  match goal with |- context [mix ?x] => pose proof (mix_range x) as Hr; destruct (mix x) as [[a' b'] c'] end.
  exists c'. split; [reflexivity | apply Hr].
Qed.

(** ** The digest

    The values below are those the C function returns for the same
    arguments. *)

Example hash_abcdefghijklm :
  hash [x61; x62; x63; x64; x65; x66; x67; x68; x69; x6a; x6b; x6c; x6d] 13 5
  = Some 3210426734.
Proof. vm_compute. reflexivity. Qed.

Example hash_a : hash [x61] 1 0 = Some 703514648.
Proof. vm_compute. reflexivity. Qed.

Example hash_short_key : hash [x61; x62; x63] 5 0 = None.
Proof. vm_compute. reflexivity. Qed.

(** C1. For every key [k], length [n] and seed [s], [hash k n s] is the
    digest the specification describes: the accumulators start as
    [a = b = 0x9e3779b9] and [c = s]; every 12-byte block adds its three
    little-endian 32-bit words into [a], [b], [c] and is followed by [mix];
    the length is added into [c]; the 0 to 11 remaining bytes are folded into
    the accumulators; a last [mix] is applied and the third accumulator is
    returned.  The length that counts is the 32-bit value of [n]. *)
Theorem hash_computed_as_specified (k : list byte) (n s : Z) :
  hash k n s = Spec.hash_spec k (U32.wrap n) s.
Proof. apply hash_as_spec. Qed.

Lemma wrap_le n : 0 <= n -> U32.wrap n <= n.
Proof. intros. unfold U32.wrap, U32.modulus. apply Z.mod_le; lia. Qed.

(** C2. Two invocations of [hash] with the same key bytes, the same length
    and the same seed return the same 32-bit digest: the digest is a function
    of the first [n] bytes of the key, of [n] and of the seed, and of nothing
    else (whatever follows the key in memory does not count). *)
Theorem hash_deterministic (k1 k2 : list byte) (n1 n2 s1 s2 : Z) :
  0 <= n1 <= Z.of_nat (length k1) ->
  take (Z.to_nat n1) k1 = take (Z.to_nat n2) k2 ->
  n1 = n2 ->
  s1 = s2 ->
  exists d, hash k1 n1 s1 = Some d /\ hash k2 n2 s2 = Some d /\ U32.in_range d.
Proof.
  intros Hn Hk <- <-. rewrite !hash_as_spec.
  pose proof (wrap_le n1 (proj1 Hn)) as Hle.
  pose proof (proj1 (in_range_bounds _) (wrap_range n1)) as Hw.
  set (m := U32.wrap n1) in *.
  destruct (spec_hash_total k1 m s1) as [d [Hd Hr]]; [lia|].
  exists d. split; [exact Hd|]. split; [|exact Hr].
  rewrite <- Hd, <- (spec_hash_take k1), <- (spec_hash_take k2) by lia.
  f_equal.
  rewrite <- (Nat.min_l (Z.to_nat m) (Z.to_nat n1)) by lia.
  rewrite <- !take_take. f_equal. symmetry. exact Hk.
Qed.

Lemma hash_deterministic_witness :
  exists d, hash [x61; x62] 2 7 = Some d /\ hash [x61; x62; x63] 2 7 = Some d
            /\ U32.in_range d.
Proof.
  apply (hash_deterministic [x61; x62] [x61; x62; x63] 2 2 7 7);
    [simpl; lia | reflexivity | reflexivity | reflexivity].
Defined.

(** C9. With length 0 no byte of the key is read and the digest is the third
    accumulator of [mix] applied to [(0x9e3779b9, 0x9e3779b9, s)]: it is the
    same for every key, the empty one included. *)
Theorem hash_empty_key (k : list byte) (s : Z) :
  U32.in_range s ->
  hash k 0 s = Some (mix (golden, golden, s)).2 /\ hash k 0 s = hash [] 0 s.
Proof.
  intros Hs.
  assert (E : forall k', hash k' 0 s = Some (mix (golden, golden, s)).2).
  { intros k'. unfold hash. change (U32.wrap 0) with 0.
    rewrite hash_loop_exit by lia. cbn [mbind option_bind].
    replace (U32.add s 0) with s
      by (unfold U32.add; rewrite Z.add_0_r, wrap_small; auto).
    unfold hash_switch, arm, reaches. cbn [Z.leb Z.compare andb mbind option_bind].
    destruct (mix (golden, golden, s)) as [[a b] c]. reflexivity. }
  rewrite !E. split; reflexivity.
Qed.

Lemma hash_empty_key_witness :
  hash [x61] 0 5 = Some (mix (golden, golden, 5)).2 /\ hash [x61] 0 5 = hash [] 0 5.
Proof.
  apply (hash_empty_key [x61] 5). unfold U32.in_range, U32.modulus. lia.
Defined.

Example hash_length_wraps :
  hash [x61; x62; x63] (2 ^ 32 + 3) 0 = hash [x61; x62; x63] 3 0.
Proof. vm_compute. reflexivity. Qed.

(** C10. The digest depends on the length modulo [2^32] only: [hash k L s] is
    the digest of the first [L mod 2^32] bytes of [k] with length
    [L mod 2^32] and seed [s]. *)
Theorem hash_length_truncated (k : list byte) (L s : Z) :
  hash k L s = hash (take (Z.to_nat (U32.wrap L)) k) (U32.wrap L) s.
Proof.
  rewrite !hash_as_spec, wrap_wrap.
  pose proof (proj1 (in_range_bounds _) (wrap_range L)).
  rewrite spec_hash_take by lia. reflexivity.
Qed.

(** ** Avalanche *)

Lemma single_bit_collision :
  length Avalanche.key_a = length Avalanche.key_b /\
  Avalanche.key_hamming Avalanche.key_a Avalanche.key_b = 1 /\
  hash Avalanche.key_a 4 Avalanche.colliding_seed = Some 160006056 /\
  hash Avalanche.key_b 4 Avalanche.colliding_seed = Some 160006056.
Proof. repeat split; vm_compute; reflexivity. Qed.

(** C8 as stated fails: it is not the case that two keys of the same length
    that differ in a single bit always get different digests under the same
    seed.  [key_a] and [key_b] differ in the lowest bit of their first byte
    and both hash to 160006056 under [colliding_seed]. *)
Lemma avalanche_not_pairwise :
  ~ (forall (k1 k2 : list byte) (s : Z),
        length k1 = length k2 ->
        Avalanche.key_hamming k1 k2 = 1 ->
        hash k1 (Z.of_nat (length k1)) s <> hash k2 (Z.of_nat (length k2)) s).
Proof.
  intros H.
  apply (H Avalanche.key_a Avalanche.key_b Avalanche.colliding_seed eq_refl eq_refl).
  vm_compute. reflexivity.
Qed.

Lemma Forall_of_forallb {A} (P : A -> Prop) (f : A -> bool) (l : list A) :
  (forall x, f x = true -> P x) -> forallb f l = true -> Forall P l.
Proof.
  intros Hf. induction l as [|x l IH]; cbn [forallb]; intros H.
  - constructor.
  - apply andb_true_iff in H as [Hx Hl]. constructor; auto.
Qed.

(** C8, amended.  Avalanche holds on average over the sampled single-bit
    changes, not for every pair of keys: for every sampled key (the alphabet
    prefixes of length 1 to 26, seed 0) the digests of its [8 * length]
    single-bit changes are on average at least 14 of the 32 bits away from
    its own digest; over all the keys of one byte the average is at least 15
    bits; and no single-bit change of a sampled key or of a key of one byte
    leaves the digest as it was. *)
Theorem avalanche_on_sample :
  Forall (fun k => 14 * (8 * Z.of_nat (length k)) <= Avalanche.total_distance 0 k)
         Avalanche.sample /\
  15 * (8 * 256) <=
    fold_right Z.add 0 (map (Avalanche.total_distance 0) Avalanche.one_byte_keys) /\
  Forall (fun k => Forall (fun k' => 1 <= Avalanche.digest_distance 0 k k')
                          (Avalanche.single_bit_changes k))
         (Avalanche.sample ++ Avalanche.one_byte_keys).
Proof.
  split; [|split].
  - apply (Forall_of_forallb _
      (fun k => 14 * (8 * Z.of_nat (length k)) <=? Avalanche.total_distance 0 k)).
    + intros k Hk. apply Z.leb_le. exact Hk.
    + vm_compute. reflexivity.
  - apply Z.leb_le. vm_compute. reflexivity.
  - apply (Forall_of_forallb _
      (fun k => forallb (fun k' => 1 <=? Avalanche.digest_distance 0 k k')
                        (Avalanche.single_bit_changes k))).
    + intros k Hk. revert Hk. apply Forall_of_forallb.
      intros k' Hk'. apply Z.leb_le. exact Hk'.
    + vm_compute. reflexivity.
Qed.
(** * Properties of the handle table *)

Import Hashtable.

Section Probing.

Variable p : option entry -> bool.
Variable t : hashtable_t.

Lemma probe_Some start n idx :
  probe p t start n = Some idx ->
  (0 < length t)%nat ->
  p (t !!! idx) = true /\ (idx < length t)%nat.
Proof.
  intros H Hlen. revert start H.
  induction n as [|n IH]; intros start; cbn [probe]; [discriminate|].
  destruct (p (t !!! Z.to_nat (start mod Z.of_nat (length t)))) eqn:Hp.
  - intros [= <-]. split; [exact Hp|].
    pose proof (Z.mod_pos_bound start (Z.of_nat (length t))). lia.
  - apply IH.
Qed.

Lemma probe_None start n :
  probe p t start n = None ->
  forall i, (i < n)%nat ->
    p (t !!! Z.to_nat ((start + Z.of_nat i) mod Z.of_nat (length t))) = false.
Proof.
  revert start. induction n as [|n IH]; intros start; cbn [probe]; [lia|].
  destruct (p (t !!! Z.to_nat (start mod Z.of_nat (length t)))) eqn:Hp; [discriminate|].
  intros H [|i] Hi.
  - rewrite Z.add_0_r. exact Hp.
  - specialize (IH _ H i ltac:(lia)).
    replace (start + Z.of_nat (S i)) with (start + 1 + Z.of_nat i) by lia.
    exact IH.
Qed.

(** A probe sequence as long as the table visits every slot. *)
Lemma probe_covers start idx :
  (idx < length t)%nat ->
  exists i, (i < length t)%nat /\
    Z.to_nat ((start + Z.of_nat i) mod Z.of_nat (length t)) = idx.
Proof.
  intros Hidx. set (L := Z.of_nat (length t)).
  assert (HL : 0 < L) by (unfold L; lia).
  pose proof (Z.mod_pos_bound (Z.of_nat idx - start) L HL) as Hb.
  exists (Z.to_nat ((Z.of_nat idx - start) mod L)). split; [unfold L in *; lia|].
  rewrite Z2Nat.id by lia. rewrite Zplus_mod_idemp_r.
  replace (start + (Z.of_nat idx - start)) with (Z.of_nat idx) by lia.
  rewrite Z.mod_small by (unfold L; lia). lia.
Qed.

Lemma probe_all_None start idx :
  probe p t start (length t) = None ->
  (idx < length t)%nat ->
  p (t !!! idx) = false.
Proof.
  intros H Hidx. destruct (probe_covers start idx Hidx) as [i [Hi <-]].
  apply probe_None with (n := length t); assumption.
Qed.

End Probing.

Lemma holds_true key e : holds key e = true -> exists v, e = Some (key, v).
Proof.
  destruct e as [[k v]|]; cbn [holds]; [|discriminate].
  intros H. apply Z.eqb_eq in H. subst. eauto.
Qed.

Lemma lookup_total_Some (t : hashtable_t) idx e :
  t !!! idx = Some e -> t !! idx = Some (Some e).
Proof.
  rewrite list_lookup_total_alt. destruct (t !! idx) as [x|]; cbn; [congruence|discriminate].
Qed.

Section Finding.

Variable salt : Z.

Lemma find_key_Some t key idx :
  find_key salt t key = Some idx -> exists v, t !! idx = Some (Some (key, v)).
Proof.
  unfold find_key. intros H.
  destruct (decide (0 < length t)%nat) as [Hl|Hl].
  - apply probe_Some in H as [H _]; [|exact Hl].
    apply holds_true in H as [v Hv]. exists v. apply lookup_total_Some, Hv.
  - replace (length t) with 0%nat in H by lia. discriminate.
Qed.

Lemma find_key_None t key idx v :
  find_key salt t key = None -> t !! idx <> Some (Some (key, v)).
Proof.
  unfold find_key. intros H Hidx.
  pose proof (lookup_lt_Some _ _ _ Hidx) as Hlt.
  apply probe_all_None with (idx := idx) in H; [|exact Hlt].
  rewrite (list_lookup_total_correct _ _ _ Hidx) in H.
  cbn [holds] in H. rewrite Z.eqb_refl in H. discriminate.
Qed.

Lemma find_empty_Some t key idx :
  find_empty salt t key = Some idx -> t !! idx = Some None.
Proof.
  unfold find_empty. intros H.
  destruct (decide (0 < length t)%nat) as [Hl|Hl].
  - apply probe_Some in H as [H Hlt]; [|exact Hl].
    destruct (lookup_lt_is_Some_2 t idx Hlt) as [e He].
    rewrite (list_lookup_total_correct _ _ _ He) in H.
    destruct e; [discriminate|exact He].
  - replace (length t) with 0%nat in H by lia. discriminate.
Qed.

Lemma find_empty_None t key idx :
  find_empty salt t key = None -> t !! idx <> Some None.
Proof.
  unfold find_empty. intros H Hidx.
  pose proof (lookup_lt_Some _ _ _ Hidx) as Hlt.
  apply probe_all_None with (idx := idx) in H; [|exact Hlt].
  rewrite (list_lookup_total_correct _ _ _ Hidx) in H. discriminate.
Qed.

End Finding.

(** *** The live entries under slot updates *)

Lemma live_app (t1 t2 : hashtable_t) : live (t1 ++ t2) = live t1 ++ live t2.
Proof. apply omap_app. Qed.

Lemma live_fill (t : hashtable_t) i e :
  t !! i = Some None -> live (<[i := Some e]> t) ≡ₚ e :: live t.
Proof.
  intros Hi. pose proof (lookup_lt_Some _ _ _ Hi) as Hlt.
  rewrite insert_take_drop by exact Hlt.
  rewrite <- (take_drop_middle t i None Hi) at 3.
  rewrite !live_app. cbn. symmetry. apply Permutation_middle.
Qed.

Lemma live_clear (t : hashtable_t) i e :
  t !! i = Some (Some e) -> live t ≡ₚ e :: live (<[i := None]> t).
Proof.
  intros Hi. pose proof (lookup_lt_Some _ _ _ Hi) as Hlt.
  rewrite insert_take_drop by exact Hlt.
  rewrite <- (take_drop_middle t i (Some e) Hi) at 1.
  rewrite !live_app. cbn. symmetry. apply Permutation_middle.
Qed.

Lemma elem_of_live (t : hashtable_t) e :
  e ∈ live t <-> exists i, t !! i = Some (Some e).
Proof.
  unfold live. rewrite list_elem_of_omap. split.
  - intros [x [Hx Hid]]. cbn in Hid. subst x.
    apply list_elem_of_lookup in Hx. exact Hx.
  - intros [i Hi]. exists (Some e). split; [|reflexivity].
    apply list_elem_of_lookup. eauto.
Qed.

Lemma live_cons (x : option entry) (t : hashtable_t) :
  live (x :: t) = match x with Some e => e :: live t | None => live t end.
Proof. destruct x; reflexivity. Qed.

Lemma live_length (t : hashtable_t) : (length (live t) <= length t)%nat.
Proof.
  induction t as [|[e|] t IH]; [cbn; lia| |]; rewrite live_cons; cbn [length]; lia.
Qed.

Lemma hole_exists (t : hashtable_t) :
  (length (live t) < length t)%nat -> exists i, t !! i = Some None.
Proof.
  induction t as [|[e|] t IH]; [cbn; lia| |]; rewrite live_cons; cbn [length]; intros H.
  - destruct IH as [i Hi]; [lia|]. exists (S i). exact Hi.
  - exists 0%nat. reflexivity.
Qed.

Lemma live_replicate n : live (replicate n None) = [].
Proof.
  induction n as [|n IH]; [reflexivity|].
  cbn [replicate]. rewrite live_cons. exact IH.
Qed.

(** The table [t] holds exactly the bindings of the finite map [m]. *)
Definition models (t : hashtable_t) (m : gmap Z Z) : Prop :=
  live t ≡ₚ map_to_list m.

Lemma models_elem t m k v : models t m -> (k, v) ∈ live t <-> m !! k = Some v.
Proof. unfold models. intros ->. apply elem_of_map_to_list. Qed.

Lemma models_slot t m idx k v :
  models t m -> t !! idx = Some (Some (k, v)) -> m !! k = Some v.
Proof. intros H Hi. apply (models_elem t m k v H), elem_of_live. eauto. Qed.

Lemma models_entries t m : models t m -> hashtable_entries t = Z.of_nat (size m).
Proof.
  unfold models, hashtable_entries. intros H. f_equal.
  rewrite <- length_map_to_list. apply Permutation_length, H.
Qed.

Lemma models_empty n : models (replicate n None) ∅.
Proof. unfold models. rewrite live_replicate, map_to_list_empty. reflexivity. Qed.

Lemma models_cleared t m idx k v :
  models t m -> t !! idx = Some (Some (k, v)) ->
  models (<[idx := None]> t) (delete k m).
Proof.
  intros H Hi. pose proof (models_slot _ _ _ _ _ H Hi) as Hm.
  unfold models in *. apply (Permutation_cons_inv (a := (k, v))).
  rewrite <- (live_clear t idx (k, v) Hi), H.
  symmetry. apply map_to_list_delete, Hm.
Qed.

Lemma models_filled t m idx k v :
  models t m -> t !! idx = Some None -> m !! k = None ->
  models (<[idx := Some (k, v)]> t) (<[k := v]> m).
Proof.
  unfold models. intros H Hi Hm.
  rewrite (live_fill t idx (k, v) Hi), H. symmetry. apply map_to_list_insert, Hm.
Qed.

Section Operations.

Variable granularity : nat.
Variable overloaded : nat -> nat -> bool.
Variable salt : Z.
Variable alloc : nat -> bool.

Hypothesis granularity_pos : (0 < granularity)%nat.
Hypothesis overloaded_full : forall e c, overloaded e c = false -> (e <= c)%nat.

Lemma models_absent t m k : models t m -> find_key salt t k = None -> m !! k = None.
Proof.
  intros H Hf. destruct (m !! k) as [v|] eqn:Hm; [|reflexivity].
  apply (models_elem t m k v H), elem_of_live in Hm as [i Hi].
  exfalso. eapply find_key_None; eauto.
Qed.

Lemma create_models size t :
  hashtable_create granularity alloc size = Some t -> models t ∅.
Proof.
  unfold hashtable_create. destruct (alloc _); [|discriminate].
  intros [= <-]. apply models_empty.
Qed.

Lemma get_models t m k :
  models t m -> hashtable_get salt t k = default NULL (m !! k).
Proof.
  intros H. unfold hashtable_get.
  destruct (find_key salt t k) as [idx|] eqn:Hf.
  - apply find_key_Some in Hf as [v Hi]. unfold value_at. rewrite Hi.
    rewrite (models_slot _ _ _ _ _ H Hi). reflexivity.
  - rewrite (models_absent _ _ _ H Hf). reflexivity.
Qed.

Lemma remove_models t m k :
  models t m ->
  (hashtable_remove salt t k).1 = default NULL (m !! k) /\
  models (hashtable_remove salt t k).2 (delete k m) /\
  (m !! k = None -> (hashtable_remove salt t k).2 = t).
Proof.
  intros H. unfold hashtable_remove.
  destruct (find_key salt t k) as [idx|] eqn:Hf; cbn [fst snd].
  - apply find_key_Some in Hf as [v Hi].
    pose proof (models_slot _ _ _ _ _ H Hi) as Hm.
    unfold value_at. rewrite Hi, Hm. split; [reflexivity|]. split.
    + eapply models_cleared; eauto.
    + congruence.
  - pose proof (models_absent _ _ _ H Hf) as Hm. rewrite Hm.
    split; [reflexivity|]. split; [|reflexivity].
    rewrite delete_id by exact Hm. exact H.
Qed.

Lemma insert_new_Some t k v :
  (length (live t) < length t)%nat -> is_Some (insert_new salt t k v).
Proof.
  intros Hl. unfold insert_new.
  destruct (find_empty salt t k) as [idx|] eqn:Hf; [eexists; reflexivity|].
  destruct (hole_exists t Hl) as [i Hi].
  exfalso. eapply find_empty_None; eauto.
Qed.

Lemma insert_new_live t k v t' :
  insert_new salt t k v = Some t' ->
  live t' ≡ₚ (k, v) :: live t /\ length t' = length t.
Proof.
  unfold insert_new. destruct (find_empty salt t k) as [idx|] eqn:Hf; [|discriminate].
  cbn. intros [= <-]. apply find_empty_Some in Hf.
  split; [apply live_fill, Hf | apply length_insert].
Qed.

Lemma insert_new_models t m k v t' :
  models t m -> m !! k = None -> insert_new salt t k v = Some t' ->
  models t' (<[k := v]> m).
Proof.
  unfold models. intros H Hm Hi. apply insert_new_live in Hi as [-> _].
  rewrite H. symmetry. apply map_to_list_insert, Hm.
Qed.

(** Storing the entries of [l] again, into a table with room for them. *)
Lemma rehash_fold (l : hashtable_t) : forall a : hashtable_t,
  (length (live a) + length (live l) <= length a)%nat ->
  exists a', fold_left (rehash_step salt) l (Some a) = Some a' /\
             live a' ≡ₚ live l ++ live a /\ length a' = length a.
Proof.
  induction l as [|[[k v]|] l IH]; intros a Ha.
  - exists a. repeat split; reflexivity.
  - rewrite live_cons in Ha. cbn [length] in Ha.
    destruct (insert_new_Some a k v) as [a1 Ha1]; [pose proof (live_length l); lia|].
    pose proof (insert_new_live _ _ _ _ Ha1) as [Hl1 Hn1].
    destruct (IH a1) as [a' [Hf [Hl Hn]]].
    { rewrite Hl1, Hn1. cbn [length]. lia. }
    exists a'. cbn [fold_left rehash_step mbind option_bind]. rewrite Ha1.
    split; [exact Hf|]. split; [|congruence].
    rewrite Hl, Hl1, live_cons. cbn [app]. symmetry. apply Permutation_middle.
  - rewrite live_cons in Ha.
    destruct (IH a Ha) as [a' [Hf [Hl Hn]]].
    exists a'. cbn [fold_left rehash_step]. rewrite live_cons. auto.
Qed.

Lemma expand_models t m :
  models t m -> alloc (length t + granularity) = true ->
  exists t', expand granularity salt alloc t = Some t' /\ models t' m /\
             length t' = (length t + granularity)%nat.
Proof.
  intros H Ha. unfold expand. rewrite Ha.
  destruct (rehash_fold t (replicate (length t + granularity) None))
    as [t' [Hf [Hl Hn]]].
  { rewrite live_replicate, length_replicate. pose proof (live_length t).
    cbn [length]. lia. }
  exists t'. split; [exact Hf|]. split.
  - unfold models. rewrite Hl, live_replicate, app_nil_r. exact H.
  - rewrite Hn, length_replicate. reflexivity.
Qed.

Lemma expand_None t :
  expand granularity salt alloc t = None -> alloc (length t + granularity) = false.
Proof.
  unfold expand. destruct (alloc _) eqn:Ha; [|reflexivity].
  destruct (rehash_fold t (replicate (length t + granularity) None))
    as [t' [Hf _]]; [|congruence].
  rewrite live_replicate, length_replicate. pose proof (live_length t).
  cbn [length]. lia.
Qed.

(** [hashtable_put] stores the binding, and fails only when the allocator
    refuses the larger array; a failed put leaves the table as it was. *)
Lemma put_models t m k v :
  models t m ->
  (exists t', hashtable_put granularity overloaded salt alloc t k v = (STATUS_OK, t')
              /\ models t' (<[k := v]> m)) \/
  (hashtable_put granularity overloaded salt alloc t k v = (ERR_NO_MEM, t)
   /\ alloc (length t + granularity) = false).
Proof.
  intros H. unfold hashtable_put.
  destruct (find_key salt t k) as [idx|] eqn:Hf.
  - left. eexists. split; [reflexivity|].
    apply find_key_Some in Hf as [v0 Hi].
    rewrite <- (list_insert_insert_eq t idx (Some (k, v)) None).
    rewrite <- (insert_delete_eq m).
    apply models_filled.
    + eapply models_cleared; eauto.
    + apply list_lookup_insert_eq. eapply lookup_lt_Some; eauto.
    + apply lookup_delete_eq.
  - pose proof (models_absent _ _ _ H Hf) as Hm.
    destruct (overloaded (S (length (live t))) (length t)) eqn:Ho.
    + destruct (expand granularity salt alloc t) as [t1|] eqn:He.
      * left. destruct (alloc (length t + granularity)) eqn:Ha.
        2:{ unfold expand in He. rewrite Ha in He. discriminate. }
        destruct (expand_models t m H Ha) as [t1' [He' [H1 Hn1]]].
        assert (t1' = t1) by congruence. subst t1'.
        destruct (insert_new_Some t1 k v) as [t' Ht'].
        { unfold models in H1, H. rewrite H1, <- H, Hn1.
          pose proof (live_length t). lia. }
        exists t'. cbn [mbind option_bind]. rewrite Ht'.
        split; [reflexivity|]. eapply insert_new_models; eauto.
      * right. cbn [mbind option_bind]. split; [reflexivity|].
        apply expand_None, He.
    + left. apply overloaded_full in Ho.
      destruct (insert_new_Some t k v) as [t' Ht']; [lia|].
      exists t'. cbn [mbind option_bind]. rewrite Ht'.
      split; [reflexivity|]. eapply insert_new_models; eauto.
Qed.

End Operations.

(** *** Sequences of operations, on the finite map *)

Definition bind_all (kvs : list entry) (m : gmap Z Z) : gmap Z Z :=
  fold_left (fun m kv => <[kv.1 := kv.2]> m) kvs m.

Definition unbind_all (ks : list Z) (m : gmap Z Z) : gmap Z Z :=
  fold_left (fun m k => delete k m) ks m.

Lemma bind_all_notin kvs : forall m k,
  k ∉ kvs.*1 -> bind_all kvs m !! k = m !! k.
Proof.
  induction kvs as [|[k0 v0] kvs IH]; intros m k Hk; [reflexivity|].
  cbn in Hk. apply not_elem_of_cons in Hk as [Hne Hk].
  cbn [bind_all fold_left]. fold (bind_all kvs (<[k0 := v0]> m)).
  rewrite IH by exact Hk. cbn. apply lookup_insert_ne. congruence.
Qed.

Lemma bind_all_in kvs : forall m k v,
  NoDup kvs.*1 -> (k, v) ∈ kvs -> bind_all kvs m !! k = Some v.
Proof.
  induction kvs as [|[k0 v0] kvs IH]; intros m k v Hnd Hin.
  - apply elem_of_nil in Hin as [].
  - cbn in Hnd. apply NoDup_cons in Hnd as [Hk0 Hnd].
    cbn [bind_all fold_left]. fold (bind_all kvs (<[k0 := v0]> m)).
    apply elem_of_cons in Hin as [[= -> ->]|Hin].
    + rewrite bind_all_notin by exact Hk0. cbn. apply lookup_insert_eq.
    + apply IH; assumption.
Qed.

Lemma bind_all_empty_inv kvs k v :
  bind_all kvs ∅ !! k = Some v -> NoDup kvs.*1 -> (k, v) ∈ kvs.
Proof.
  intros H Hnd. destruct (decide (k ∈ kvs.*1)) as [Hin|Hout].
  - apply list_elem_of_fmap in Hin as [[k' v'] [-> Hin]]. cbn in H |- *.
    rewrite (bind_all_in _ _ _ _ Hnd Hin) in H. injection H as <-. exact Hin.
  - rewrite bind_all_notin, lookup_empty in H by exact Hout. discriminate.
Qed.

Lemma unbind_all_lookup ks : forall m k,
  unbind_all ks m !! k = if decide (k ∈ ks) then None else m !! k.
Proof.
  induction ks as [|k0 ks IH]; intros m k.
  - rewrite decide_False by apply not_elem_of_nil. reflexivity.
  - cbn [unbind_all fold_left]. fold (unbind_all ks (delete k0 m)). rewrite IH.
    destruct (decide (k ∈ ks)) as [Hin|Hout].
    + rewrite decide_True by (apply elem_of_cons; auto). reflexivity.
    + destruct (decide (k = k0)) as [->|Hne].
      * rewrite decide_True by (apply elem_of_cons; auto). apply lookup_delete_eq.
      * rewrite decide_False by (rewrite elem_of_cons; tauto).
        apply lookup_delete_ne. congruence.
Qed.

Section Runs.

Variable granularity : nat.
Variable overloaded : nat -> nat -> bool.
Variable salt : Z.
Variable alloc : nat -> bool.

Hypothesis granularity_pos : (0 < granularity)%nat.
Hypothesis overloaded_full : forall e c, overloaded e c = false -> (e <= c)%nat.

Abbreviation put := (hashtable_put granularity overloaded salt alloc).
Abbreviation put_all := (put_all granularity overloaded salt alloc).
Abbreviation remove := (hashtable_remove salt).
Abbreviation remove_all := (remove_all salt).
Abbreviation get := (hashtable_get salt).

Lemma put_all_models kvs : forall t m t',
  models t m -> put_all t kvs = (STATUS_OK, t') -> models t' (bind_all kvs m).
Proof.
  induction kvs as [|[k v] kvs IH]; intros t m t' H Hp.
  - cbn in Hp. injection Hp as <-. exact H.
  - cbn [Hashtable.put_all] in Hp.
    destruct (put_models granularity overloaded salt alloc
                granularity_pos overloaded_full t m k v H)
      as [[t1 [E H1]]|[E _]]; rewrite E in Hp.
    + exact (IH _ _ _ H1 Hp).
    + discriminate.
Qed.

Lemma remove_all_models ks : forall t m,
  models t m -> models (remove_all t ks) (unbind_all ks m).
Proof.
  induction ks as [|k ks IH]; intros t m H; [exact H|].
  cbn [Hashtable.remove_all fold_left].
  apply IH. apply (remove_models salt t m k H).
Qed.

Lemma table_models t :
  table_reachable granularity overloaded salt alloc t -> exists m, models t m.
Proof.
  induction 1 as [size t Hc|t k v _ [m H]|t k _ [m H]].
  - exists ∅. eapply create_models, Hc.
  - destruct (put_models granularity overloaded salt alloc
                granularity_pos overloaded_full t m k v H)
      as [[t1 [E H1]]|[E _]]; rewrite E; cbn [snd]; eauto.
  - exists (delete k m). apply (remove_models salt t m k H).
Qed.

Lemma stored_models t m k v : models t m -> stored t k v <-> m !! k = Some v.
Proof.
  intros H. rewrite <- (models_elem t m k v H), elem_of_live.
  unfold stored. apply list_elem_of_lookup.
Qed.

End Runs.

Section Claims.

Variable granularity : nat.
Variable overloaded : nat -> nat -> bool.
Variable salt : Z.
Variable alloc : nat -> bool.

Hypothesis granularity_pos : (0 < granularity)%nat.
Hypothesis overloaded_full : forall e c, overloaded e c = false -> (e <= c)%nat.

Abbreviation put_all := (Hashtable.put_all granularity overloaded salt alloc).
Abbreviation remove := (hashtable_remove salt).
Abbreviation remove_all := (Hashtable.remove_all salt).
Abbreviation get := (hashtable_get salt).

(** With an allocator that never refuses, no insertion fails. *)
Lemma put_all_succeeds kvs : forall t m,
  (forall n, alloc n = true) -> models t m ->
  exists t', put_all t kvs = (STATUS_OK, t').
Proof.
  intros t m Ha. revert t m.
  induction kvs as [|[k v] kvs IH]; intros t m H.
  - exists t. reflexivity.
  - cbn [Hashtable.put_all].
    destruct (put_models granularity overloaded salt alloc
                granularity_pos overloaded_full t m k v H)
      as [[t1 [E H1]]|[_ E]].
    + rewrite E. exact (IH _ _ H1).
    + rewrite Ha in E. discriminate.
Qed.

(** C3. After the insertion of any number of distinct keys into a created
    table and the removal of any keys, [hashtable_get] returns the stored
    value for every key that survives and the sentinel for every key that was
    removed, and [hashtable_entries] is the number of surviving keys; the
    insertions may force any number of resizes. *)
Theorem get_consistent_after_removals
    (size : Z) (t0 t1 : hashtable_t) (kvs : list entry) (rm : list Z) :
  hashtable_create granularity alloc size = Some t0 ->
  NoDup kvs.*1 ->
  put_all t0 kvs = (STATUS_OK, t1) ->
  (forall k v, (k, v) ∈ kvs ->
     get (remove_all t1 rm) k = if decide (k ∈ rm) then NULL else v) /\
  hashtable_entries (remove_all t1 rm) =
    Z.of_nat (length (filter (fun kv => kv.1 ∉ rm) kvs)).
Proof.
  intros Hc Hnd Hp.
  pose proof (create_models _ _ _ _ Hc) as H0.
  pose proof (put_all_models granularity overloaded salt alloc
                granularity_pos overloaded_full kvs _ _ _ H0 Hp) as H1.
  pose proof (remove_all_models salt rm _ _ H1) as H2.
  split.
  - intros k v Hin. rewrite (get_models salt _ _ k H2), unbind_all_lookup.
    destruct (decide (k ∈ rm)); [reflexivity|].
    rewrite (bind_all_in _ _ _ _ Hnd Hin). reflexivity.
  - rewrite (models_entries _ _ H2), <- length_map_to_list. f_equal.
    apply Permutation_length, NoDup_Permutation.
    + apply NoDup_map_to_list.
    + apply NoDup_filter. eapply NoDup_fmap_1, Hnd.
    + intros [k v]. rewrite elem_of_map_to_list, unbind_all_lookup, list_elem_of_filter.
      cbn. destruct (decide (k ∈ rm)) as [Hin|Hout].
      * split; [discriminate | tauto].
      * split.
        -- intros Hb. split; [exact Hout|]. apply bind_all_empty_inv; assumption.
        -- intros [_ Hin]. apply bind_all_in; assumption.
Qed.

(** C4. [hashtable_remove] returns what [hashtable_get] returned before.  If
    the key is stored, that is the value stored under it, and afterwards the
    key is stored no more, one entry less is counted and every other key
    reads as before; if the key is absent, the sentinel is returned and the
    table is unchanged. *)
Theorem remove_returns_previous (t : hashtable_t) (key : Z) :
  table_reachable granularity overloaded salt alloc t ->
  (remove t key).1 = get t key /\
  (forall v, stored t key v ->
     (remove t key).1 = v /\
     (forall v', ~ stored (remove t key).2 key v') /\
     get (remove t key).2 key = NULL /\
     hashtable_entries (remove t key).2 = hashtable_entries t - 1 /\
     (forall k, k <> key -> get (remove t key).2 k = get t k)) /\
  ((forall v, ~ stored t key v) ->
     (remove t key).1 = NULL /\ (remove t key).2 = t).
Proof.
  intros Hr.
  destruct (table_models granularity overloaded salt alloc
              granularity_pos overloaded_full t Hr) as [m H].
  destruct (remove_models salt t m key H) as [Hv [H' Hid]].
  split; [|split].
  - rewrite Hv, (get_models salt t m key H). reflexivity.
  - intros v Hs. apply (stored_models t m key v H) in Hs.
    split; [rewrite Hv, Hs; reflexivity|]. split; [|split; [|split]].
    + intros v' Hs'. apply (stored_models _ _ key v' H') in Hs'.
      rewrite lookup_delete_eq in Hs'. discriminate.
    + rewrite (get_models salt _ _ key H'), lookup_delete_eq. reflexivity.
    + rewrite (models_entries _ _ H'), (models_entries _ _ H).
      assert (Hsome : is_Some (m !! key)) by eauto.
      rewrite (map_size_delete_Some key m Hsome).
      pose proof (map_size_ne_0_lookup_2 m key Hsome). lia.
    + intros k Hne. rewrite (get_models salt _ _ k H'), (get_models salt _ _ k H).
      rewrite lookup_delete_ne by congruence. reflexivity.
  - intros Ha. assert (Hm : m !! key = None).
    { destruct (m !! key) as [v|] eqn:E; [|reflexivity].
      exfalso. apply (Ha v), (stored_models t m key v H), E. }
    split; [rewrite Hv, Hm; reflexivity | exact (Hid Hm)].
Qed.

End Claims.

Lemma example_overloaded_full e c :
  TableExample.overloaded e c = false -> (e <= c)%nat.
Proof. unfold TableExample.overloaded. intros H. apply Nat.ltb_ge in H. lia. Qed.

Lemma get_consistent_after_removals_witness :
  (0 < 2)%nat /\
  (forall e c, TableExample.overloaded e c = false -> (e <= c)%nat) /\
  hashtable_create 2 TableExample.alloc 2 = Some TableExample.created /\
  NoDup TableExample.bindings.*1 /\
  put_all 2 TableExample.overloaded TableExample.salt TableExample.alloc
    TableExample.created TableExample.bindings = (STATUS_OK, TableExample.filled) /\
  (forall k v, (k, v) ∈ TableExample.bindings ->
     hashtable_get TableExample.salt
       (remove_all TableExample.salt TableExample.filled TableExample.removed) k =
     if decide (k ∈ TableExample.removed) then NULL else v) /\
  hashtable_entries
    (remove_all TableExample.salt TableExample.filled TableExample.removed) =
  Z.of_nat (length (filter (fun kv => kv.1 ∉ TableExample.removed)
                           TableExample.bindings)).
Proof.
  assert (H1 : (0 < 2)%nat) by lia.
  assert (H2 : hashtable_create 2 TableExample.alloc 2 = Some TableExample.created)
    by reflexivity.
  assert (H3 : NoDup TableExample.bindings.*1)
    by (apply (bool_decide_unpack _); vm_compute; exact I).
  assert (H4 : put_all 2 TableExample.overloaded TableExample.salt TableExample.alloc
                 TableExample.created TableExample.bindings
               = (STATUS_OK, TableExample.filled))
    by (vm_compute; reflexivity).
  split; [exact H1|]. split; [exact example_overloaded_full|].
  split; [exact H2|]. split; [exact H3|]. split; [exact H4|].
  exact (get_consistent_after_removals 2 TableExample.overloaded TableExample.salt
           TableExample.alloc H1 example_overloaded_full 2 TableExample.created
           TableExample.filled TableExample.bindings TableExample.removed H2 H3 H4).
Defined.

Lemma remove_returns_previous_witness :
  table_reachable 2 TableExample.overloaded TableExample.salt TableExample.alloc
    [None; Some (5, 50)] /\
  (hashtable_remove TableExample.salt [None; Some (5, 50)] 5).1
    = hashtable_get TableExample.salt [None; Some (5, 50)] 5 /\
  stored [None; Some (5, 50)] 5 50 /\
  (hashtable_remove TableExample.salt [None; Some (5, 50)] 5).1 = 50.
Proof.
  assert (Hr : table_reachable 2 TableExample.overloaded TableExample.salt TableExample.alloc
                 [None; Some (5, 50)]).
  { exact (put_table 2 TableExample.overloaded TableExample.salt TableExample.alloc
             TableExample.created 5 50
             (created_table 2 TableExample.overloaded TableExample.salt
                TableExample.alloc 2 TableExample.created eq_refl)). }
  pose proof (remove_returns_previous 2 TableExample.overloaded TableExample.salt
                TableExample.alloc ltac:(lia) example_overloaded_full
                [None; Some (5, 50)] 5 Hr) as H.
  assert (Hs : stored [None; Some (5, 50)] 5 50) by (unfold stored; repeat constructor).
  split; [exact Hr|]. split; [exact (proj1 H)|]. split; [exact Hs|].
  exact (proj1 (proj1 (proj2 H) 50 Hs)).
Defined.
(** * Properties of the tag engine *)

Import Engine.

(** *** The codes *)

Lemma encode_err_negative err : encode (ERR err) < 0.
Proof. destruct err; cbn; lia. Qed.

Lemma encode_int32 rc : INT32_MIN <= encode rc <= INT32_MAX.
Proof. unfold INT32_MIN, INT32_MAX. destruct rc as [| |[]]; cbn [encode]; lia. Qed.

(** *** The connection set under its updates *)

Lemma find_connection_Some ep cs c :
  find_connection ep cs = Some c ->
  exists cn, cs !! c = Some cn /\ conn_endpoint cn = ep.
Proof.
  unfold find_connection.
  destruct (List.find (serves ep) (map_to_list cs)) as [[c' cn]|] eqn:E; [|discriminate].
  cbn. intros [= <-]. apply find_some in E as [Hin Hs].
  exists cn. split.
  - apply elem_of_map_to_list, list_elem_of_In, Hin.
  - unfold serves in Hs. cbn in Hs. lia.
Qed.

Lemma attach_next_conn ep e : next_conn e <= next_conn (attach ep e).
Proof. unfold attach. destruct (find_connection _ _); cbn; lia. Qed.

Lemma lookup_attach ep e c cn :
  conns (attach ep e) !! c = Some cn ->
  conns e !! c = Some cn \/
  (c = next_conn e /\ cn = empty_connection ep /\
   next_conn (attach ep e) = next_conn e + 1).
Proof.
  unfold attach. destruct (find_connection _ _); [auto|]. cbn [conns next_conn].
  destruct (decide (next_conn e = c)) as [<-|Hne].
  - rewrite lookup_insert_eq. intros [= <-]. auto.
  - rewrite lookup_insert_ne by exact Hne. auto.
Qed.

Lemma attach_keeps ep e c cn :
  c < next_conn e -> conns e !! c = Some cn -> conns (attach ep e) !! c = Some cn.
Proof.
  intros Hlt H. unfold attach. destruct (find_connection _ _); [exact H|].
  cbn [conns]. rewrite lookup_insert_ne by lia. exact H.
Qed.

Lemma attached_is_Some ep e : is_Some (conns (attach ep e) !! attached ep e).
Proof.
  unfold attach, attached. destruct (find_connection ep (conns e)) as [c|] eqn:E.
  - apply find_connection_Some in E as [cn [Hcn _]]. cbn. eauto.
  - cbn. rewrite lookup_insert_eq. eauto.
Qed.

Lemma lookup_enqueue c h cs c' cn :
  enqueue c h cs !! c' = Some cn ->
  (c' <> c /\ cs !! c' = Some cn) \/
  (c' = c /\ exists cn0, cs !! c = Some cn0 /\
   cn = mk_connection (conn_endpoint cn0) (conn_next cn0 + 1)
          (<[conn_next cn0 := h]> (conn_pending cn0))).
Proof.
  unfold enqueue. destruct (cs !! c) as [cn0|] eqn:E.
  - destruct (decide (c = c')) as [->|Hne].
    + rewrite lookup_insert_eq. intros [= <-]. right. eauto.
    + rewrite lookup_insert_ne by exact Hne. auto.
  - intros H. left. split; [congruence|exact H].
Qed.

Lemma enqueue_is_Some c h cs c' :
  is_Some (cs !! c') -> is_Some (enqueue c h cs !! c').
Proof.
  unfold enqueue. destruct (cs !! c) as [cn0|] eqn:E; [|auto].
  destruct (decide (c = c')) as [->|Hne].
  - rewrite lookup_insert_eq. eauto.
  - rewrite lookup_insert_ne by exact Hne. auto.
Qed.

Lemma lookup_retire c corr cs c' cn :
  retire c corr cs !! c' = Some cn ->
  exists cn0, cs !! c' = Some cn0 /\ conn_next cn = conn_next cn0 /\
    conn_pending cn =
      if decide (c' = c) then delete corr (conn_pending cn0) else conn_pending cn0.
Proof.
  unfold retire. destruct (cs !! c) as [cn1|] eqn:E.
  - destruct (decide (c' = c)) as [->|Hne].
    + rewrite lookup_insert_eq. intros [= <-]. exists cn1. auto.
    + rewrite lookup_insert_ne by congruence. intros H. exists cn. auto.
  - intros H. exists cn. destruct (decide (c' = c)) as [->|Hne]; [congruence|auto].
Qed.

Lemma retire_is_Some c corr cs c' :
  is_Some (cs !! c') -> is_Some (retire c corr cs !! c').
Proof.
  unfold retire. destruct (cs !! c) as [cn1|] eqn:E; [|auto].
  destruct (decide (c = c')) as [->|Hne].
  - rewrite lookup_insert_eq. eauto.
  - rewrite lookup_insert_ne by exact Hne. auto.
Qed.

Lemma outstanding_busy s corr : outstanding s = Some corr -> busy s = true.
Proof. destruct s; cbn; congruence. Qed.

(** *** The invariant of the engine *)

Record inv (e : engine) : Prop := mk_inv {
  inv_handles : forall h t, tags e !! h = Some t -> 0 < h < next_id e;
  inv_next : 0 < next_id e;
  inv_pending : forall c cn corr h,
    conns e !! c = Some cn -> conn_pending cn !! corr = Some h ->
    exists t, tags e !! h = Some t /\ tag_conn t = c /\
              outstanding (tag_state t) = Some corr;
  inv_conn : forall h t, tags e !! h = Some t -> is_Some (conns e !! tag_conn t);
  inv_fresh : forall c cn corr h,
    conns e !! c = Some cn -> conn_pending cn !! corr = Some h -> corr < conn_next cn;
  inv_issued : forall h t corr,
    tags e !! h = Some t -> outstanding (tag_state t) = Some corr ->
    exists cn, conns e !! tag_conn t = Some cn /\ corr < conn_next cn;
  inv_conns : forall c cn, conns e !! c = Some cn -> c < next_conn e
}.

Lemma inv_init : inv init.
Proof.
  split; cbn; intros; try lia; try (rewrite lookup_empty in *; discriminate).
Qed.

(** The connection set after the request of a tag, if it has one, is
    forgotten. *)
Definition settled (t : tag) (cs : gmap Z connection) : gmap Z connection :=
  match outstanding (tag_state t) with
  | Some corr => retire (tag_conn t) corr cs
  | None => cs
  end.

Lemma lookup_settled t cs c cn :
  settled t cs !! c = Some cn ->
  exists cn0, cs !! c = Some cn0 /\ conn_next cn = conn_next cn0 /\
    forall corr h, conn_pending cn !! corr = Some h ->
      conn_pending cn0 !! corr = Some h /\
      ~ (c = tag_conn t /\ outstanding (tag_state t) = Some corr).
Proof.
  unfold settled. destruct (outstanding (tag_state t)) as [corr0|] eqn:Eo.
  - intros H. apply lookup_retire in H as [cn0 [H0 [Hn Hp]]].
    exists cn0. split; [exact H0|]. split; [exact Hn|].
    intros corr h. rewrite Hp. destruct (decide (c = tag_conn t)) as [->|Hne].
    + intros Hl. apply lookup_delete_Some in Hl as [Hc Hl].
      split; [exact Hl|]. intros [_ [= ->]]. congruence.
    + intros Hl. split; [exact Hl|]. tauto.
  - intros H. exists cn. split; [exact H|]. split; [reflexivity|].
    intros corr h Hl. split; [exact Hl|]. intros [_ [=]].
Qed.

Lemma settled_is_Some t cs c : is_Some (cs !! c) -> is_Some (settled t cs !! c).
Proof.
  unfold settled. destruct (outstanding (tag_state t)); [apply retire_is_Some|auto].
Qed.

Lemma settled_next t cs c cn :
  cs !! c = Some cn ->
  exists cn', settled t cs !! c = Some cn' /\ conn_next cn' = conn_next cn.
Proof.
  intros H. destruct (settled_is_Some t cs c) as [cn' Hcn']; [eauto|].
  exists cn'. split; [exact Hcn'|].
  apply lookup_settled in Hcn' as [cn0 [H0 [Hn _]]]. congruence.
Qed.

(** A tag that leaves its request behind. *)
Lemma inv_settle e h t buf s :
  inv e -> tags e !! h = Some t -> outstanding s = None ->
  inv (mk_engine (<[h := mk_tag buf (tag_conn t) s]> (tags e))
                 (settled t (conns e)) (next_id e) (next_conn e)).
Proof.
  intros [Hh Hn Hp Hc Hf Hi Hcs] Ht Hs. split; cbn [tags conns next_id next_conn].
  - intros h' t'. destruct (decide (h = h')) as [->|Hne].
    + intros _. eapply Hh, Ht.
    + rewrite lookup_insert_ne by exact Hne. apply Hh.
  - exact Hn.
  - intros c cn corr h' Hcn Hl.
    apply lookup_settled in Hcn as [cn0 [Hcn0 [_ Hsub]]].
    apply Hsub in Hl as [Hl Hnot].
    destruct (Hp _ _ _ _ Hcn0 Hl) as [t' [Ht' [Hc' Ho']]].
    destruct (decide (h = h')) as [->|Hne].
    + exfalso. apply Hnot. assert (t' = t) by congruence. subst t'. auto.
    + exists t'. rewrite lookup_insert_ne by exact Hne. auto.
  - intros h' t'. destruct (decide (h = h')) as [->|Hne].
    + rewrite lookup_insert_eq. intros [= <-]. cbn. apply settled_is_Some. eauto.
    + rewrite lookup_insert_ne by exact Hne. intros Ht'.
      apply settled_is_Some. eauto.
  - intros c cn corr h' Hcn Hl.
    apply lookup_settled in Hcn as [cn0 [Hcn0 [Hnext Hsub]]].
    apply Hsub in Hl as [Hl _]. rewrite Hnext. eauto.
  - intros h' t' corr. destruct (decide (h = h')) as [->|Hne].
    + rewrite lookup_insert_eq. intros [= <-]. cbn. congruence.
    + rewrite lookup_insert_ne by exact Hne. intros Ht' Ho'.
      destruct (Hi _ _ _ Ht' Ho') as [cn [Hcn Hlt]].
      destruct (settled_next t (conns e) _ _ Hcn) as [cn' [Hcn' Hn']].
      exists cn'. split; [exact Hcn'|lia].
  - intros c cn Hcn. apply lookup_settled in Hcn as [cn0 [Hcn0 _]]. eauto.
Qed.

Lemma inv_issue e h t kind timeout :
  inv e -> tags e !! h = Some t -> busy (tag_state t) = false ->
  (forall corr, outstanding (kind corr) = Some corr) ->
  inv (issue e h t kind timeout).2.
Proof.
  intros [Hh Hn Hp Hc Hf Hi Hcs] Ht Hb Hk. unfold issue. cbn [snd].
  destruct (Hc _ _ Ht) as [ct Hct].
  assert (Hnc : next_corr (tag_conn t) (conns e) = conn_next ct).
  { unfold next_corr. rewrite Hct. reflexivity. }
  split; cbn [tags conns next_id next_conn].
  - intros h' t'. destruct (decide (h = h')) as [->|Hne].
    + intros _. eapply Hh, Ht.
    + rewrite lookup_insert_ne by exact Hne. apply Hh.
  - exact Hn.
  - intros c cn corr h' Hcn Hl.
    apply lookup_enqueue in Hcn as [[Hne Hcn]|[-> [cn0 [Hcn0 ->]]]].
    + destruct (Hp _ _ _ _ Hcn Hl) as [t' [Ht' [Hc' Ho']]].
      destruct (decide (h = h')) as [->|Hne'].
      * assert (t' = t) by congruence. subst t'. congruence.
      * exists t'. rewrite lookup_insert_ne by exact Hne'. auto.
    + assert (cn0 = ct) by congruence. subst cn0.
      cbn [conn_pending] in Hl. rewrite Hnc.
      destruct (decide (conn_next ct = corr)) as [<-|Hne].
      * rewrite lookup_insert_eq in Hl. injection Hl as <-.
        eexists. rewrite lookup_insert_eq. split; [reflexivity|].
        cbn. split; [reflexivity|apply Hk].
      * rewrite lookup_insert_ne in Hl by exact Hne.
        destruct (Hp _ _ _ _ Hct Hl) as [t' [Ht' [Hc' Ho']]].
        destruct (decide (h = h')) as [->|Hne'].
        -- assert (t' = t) by congruence. subst t'.
           apply outstanding_busy in Ho'. congruence.
        -- exists t'. rewrite lookup_insert_ne by exact Hne'. auto.
  - intros h' t'. destruct (decide (h = h')) as [->|Hne].
    + rewrite lookup_insert_eq. intros [= <-]. cbn. apply enqueue_is_Some. eauto.
    + rewrite lookup_insert_ne by exact Hne. intros Ht'.
      apply enqueue_is_Some. eauto.
  - intros c cn corr h' Hcn Hl.
    apply lookup_enqueue in Hcn as [[Hne Hcn]|[-> [cn0 [Hcn0 ->]]]]; [eauto|].
    cbn [conn_pending conn_next] in *.
    destruct (decide (conn_next cn0 = corr)) as [<-|Hne]; [lia|].
    rewrite lookup_insert_ne in Hl by exact Hne.
    pose proof (Hf _ _ _ _ Hcn0 Hl). lia.
  - intros h' t' corr Ht' Ho'.
    assert (Hq : exists cn, enqueue (tag_conn t) h (conns e) !! tag_conn t = Some cn /\
                   conn_next cn = conn_next ct + 1).
    { unfold enqueue. rewrite Hct, lookup_insert_eq. eauto. }
    destruct Hq as [cq [Hcq Hnq]].
    destruct (decide (h = h')) as [->|Hne].
    + rewrite lookup_insert_eq in Ht'. injection Ht' as <-. cbn in Ho' |- *.
      rewrite Hk in Ho'. injection Ho' as <-. exists cq. split; [exact Hcq|lia].
    + rewrite lookup_insert_ne in Ht' by exact Hne.
      destruct (Hi _ _ _ Ht' Ho') as [cn [Hcn Hlt]].
      destruct (decide (tag_conn t' = tag_conn t)) as [E|Hc'].
      * rewrite E in *. exists cq. split; [exact Hcq|].
        assert (cn = ct) by congruence. subst cn. lia.
      * exists cn. split; [|exact Hlt].
        unfold enqueue. rewrite Hct, lookup_insert_ne by congruence. exact Hcn.
  - intros c cn Hcn.
    apply lookup_enqueue in Hcn as [[Hne Hcn]|[-> [cn0 [Hcn0 ->]]]]; eauto.
Qed.

Lemma inv_bump e n m :
  inv e -> next_id e <= n -> next_conn e <= m ->
  inv (mk_engine (tags e) (conns e) n m).
Proof.
  intros [Hh Hn Hp Hc Hf Hi Hcs] Hle Hle'.
  split; cbn [tags conns next_id next_conn]; eauto; try lia.
  - intros h t Ht. specialize (Hh h t Ht). lia.
  - intros c cn Hcn. specialize (Hcs c cn Hcn). lia.
Qed.

Lemma inv_register e ep buf s :
  inv e -> outstanding s = None ->
  inv (mk_engine (<[next_id e := mk_tag buf (attached ep e) s]> (tags e))
                 (conns (attach ep e)) (next_id e + 1) (next_conn (attach ep e))).
Proof.
  intros [Hh Hn Hp Hc Hf Hi Hcs] Hs. split; cbn [tags conns next_id next_conn].
  - intros h t. destruct (decide (next_id e = h)) as [<-|Hne].
    + intros _. lia.
    + rewrite lookup_insert_ne by exact Hne. intros Ht.
      specialize (Hh h t Ht). lia.
  - lia.
  - intros c' cn corr h Hcn Hl.
    apply lookup_attach in Hcn as [Hcn|[-> [-> _]]];
      [|cbn in Hl; rewrite lookup_empty in Hl; discriminate].
    destruct (Hp _ _ _ _ Hcn Hl) as [t' [Ht' [Hc' Ho']]].
    exists t'. rewrite lookup_insert_ne; [auto|].
    intros <-. specialize (Hh _ _ Ht'). lia.
  - intros h t. destruct (decide (next_id e = h)) as [<-|Hne].
    + rewrite lookup_insert_eq. intros [= <-]. cbn. apply attached_is_Some.
    + rewrite lookup_insert_ne by exact Hne. intros Ht.
      destruct (Hc _ _ Ht) as [cn Hcn].
      rewrite (attach_keeps ep e _ cn); eauto.
  - intros c' cn corr h Hcn Hl.
    apply lookup_attach in Hcn as [Hcn|[-> [-> _]]];
      [eauto | cbn in Hl; rewrite lookup_empty in Hl; discriminate].
  - intros h t corr. destruct (decide (next_id e = h)) as [<-|Hne].
    + rewrite lookup_insert_eq. intros [= <-]. cbn. congruence.
    + rewrite lookup_insert_ne by exact Hne. intros Ht Ho.
      destruct (Hi _ _ _ Ht Ho) as [cn [Hcn Hlt]].
      exists cn. split; [|exact Hlt]. apply attach_keeps; eauto.
  - intros c cn Hcn.
    apply lookup_attach in Hcn as [Hcn|[-> [_ ->]]]; [|lia].
    pose proof (attach_next_conn ep e). specialize (Hcs _ _ Hcn). lia.
Qed.

Lemma referenced_false c (ts : gmap Z tag) h t :
  referenced c ts = false -> ts !! h = Some t -> tag_conn t <> c.
Proof.
  unfold referenced. intros Hr Ht Hc.
  apply bool_decide_eq_false in Hr. apply Hr.
  exists h, t. auto.
Qed.

Lemma inv_release e h t :
  inv e -> tags e !! h = Some t -> inv (plc_tag_destroy e h).2.
Proof.
  intros He Ht. unfold plc_tag_destroy. rewrite Ht. cbn [snd].
  fold (settled t (conns e)).
  pose proof (inv_settle e h t (tag_buffer t) Idle He Ht eq_refl)
    as [Hh Hn Hp Hc Hf Hi Hcs'].
  cbn [tags conns next_id next_conn] in *.
  set (ts := delete h (tags e)).
  assert (Hcs : forall c cn,
    (if referenced (tag_conn t) ts then settled t (conns e)
     else delete (tag_conn t) (settled t (conns e))) !! c = Some cn ->
    settled t (conns e) !! c = Some cn).
  { intros c cn. destruct (referenced (tag_conn t) ts); [auto|].
    intros H. apply lookup_delete_Some in H. tauto. }
  split; cbn [tags conns next_id next_conn].
  - intros h' t' H. apply lookup_delete_Some in H as [Hne H].
    apply (Hh h' t'). rewrite lookup_insert_ne by exact Hne. exact H.
  - exact Hn.
  - intros c cn corr h' Hcn Hl. apply Hcs in Hcn.
    destruct (Hp _ _ _ _ Hcn Hl) as [t' [Ht' [Hc' Ho']]].
    destruct (decide (h = h')) as [->|Hne].
    + rewrite lookup_insert_eq in Ht'. injection Ht' as <-. discriminate Ho'.
    + rewrite lookup_insert_ne in Ht' by exact Hne.
      exists t'. unfold ts. rewrite lookup_delete_ne by exact Hne. auto.
  - intros h' t' H. pose proof H as H'.
    apply lookup_delete_Some in H as [Hne H].
    assert (Hs : is_Some (settled t (conns e) !! tag_conn t')).
    { apply (Hc h' t'). rewrite lookup_insert_ne by exact Hne. exact H. }
    destruct (referenced (tag_conn t) ts) eqn:Hr; [exact Hs|].
    rewrite lookup_delete_ne; [exact Hs|].
    intros E. eapply referenced_false; eauto.
  - intros c cn corr h' Hcn Hl. apply Hcs in Hcn. eauto.
  - intros h' t' corr H Ho. pose proof H as H'.
    apply lookup_delete_Some in H as [Hne H].
    destruct (Hi h' t' corr) as [cn [Hcn Hlt]]; [|exact Ho|].
    { rewrite lookup_insert_ne by exact Hne. exact H. }
    exists cn. split; [|exact Hlt].
    destruct (referenced (tag_conn t) ts) eqn:Hr; [exact Hcn|].
    rewrite lookup_delete_ne; [exact Hcn|].
    intros E. eapply referenced_false; eauto.
  - intros c cn Hcn. apply Hcs in Hcn. eauto.
Qed.

Lemma settled_outstanding t cs corr :
  outstanding (tag_state t) = Some corr -> settled t cs = retire (tag_conn t) corr cs.
Proof. unfold settled. intros ->. reflexivity. Qed.

Lemma settled_idle t cs : outstanding (tag_state t) = None -> settled t cs = cs.
Proof. unfold settled. intros ->. reflexivity. Qed.

Lemma receive_settles t r corr :
  outstanding (tag_state t) = Some corr ->
  exists buf s, receive t r = mk_tag buf (tag_conn t) s /\ outstanding s = None.
Proof.
  destruct t as [buf c s]. cbn [tag_state tag_conn].
  destruct s; cbn; try discriminate; intros _; destruct r; cbn; eauto.
Qed.

Lemma inv_request e h timeout kind :
  (forall corr, outstanding (kind corr) = Some corr) ->
  inv e ->
  inv (match tags e !! h with
       | None => (Done (ERR ERR_NOT_FOUND), e)
       | Some t =>
           if busy (tag_state t) then (Done (ERR ERR_NOT_READY), e)
           else issue e h t kind timeout
       end).2.
Proof.
  intros Hk He. destruct (tags e !! h) as [t|] eqn:Ht; [|exact He].
  destruct (busy (tag_state t)) eqn:Hb; [exact He|].
  apply inv_issue; auto.
Qed.

Lemma inv_cancel e h err :
  inv e ->
  inv (match tags e !! h with
       | Some t =>
           match outstanding (tag_state t) with
           | Some corr =>
               mk_engine (<[h := set_state t (Failed err)]> (tags e))
                         (retire (tag_conn t) corr (conns e)) (next_id e)
                         (next_conn e)
           | None => e
           end
       | None => e
       end).
Proof.
  intros He. destruct (tags e !! h) as [t|] eqn:Ht; [|exact He].
  destruct (outstanding (tag_state t)) as [corr|] eqn:Ho; [|exact He].
  rewrite <- (settled_outstanding t (conns e) corr Ho).
  apply (inv_settle e h t (tag_buffer t) (Failed err) He Ht eq_refl).
Qed.

Lemma inv_deliver e c corr r e' : inv e -> deliver e c corr r = Some e' -> inv e'.
Proof.
  intros He. unfold deliver.
  destruct (conns e !! c) as [cn|] eqn:Hcn; [|intros [= <-]; exact He].
  destruct (conn_pending cn !! corr) as [h|] eqn:Hl; [|intros [= <-]; exact He].
  destruct (inv_pending e He _ _ _ _ Hcn Hl) as [t [Ht [Hc Ho]]].
  rewrite Ht. cbn. intros [= <-].
  destruct (receive_settles t r corr Ho) as [buf [s [-> Hs]]].
  subst c. rewrite <- (settled_outstanding t (conns e) corr Ho).
  apply inv_settle; assumption.
Qed.

Lemma inv_connected e h outcome : inv e -> inv (connected e h outcome).
Proof.
  intros He. unfold connected.
  destruct (tags e !! h) as [t|] eqn:Ht; [|exact He].
  destruct (tag_state t) eqn:Hs; try exact He.
  unfold set_tags, set_state.
  rewrite <- (settled_idle t (conns e)) by (rewrite Hs; reflexivity).
  apply inv_settle; [exact He|exact Ht|]. destruct outcome; reflexivity.
Qed.

Lemma create_cases e attributes timeout waited :
  let r := plc_tag_create e attributes timeout waited in
  (exists err, r = (encode (ERR err), e)) \/
  (exists err ep,
     r = (encode (ERR err),
          mk_engine (tags e) (conns e) (next_id e + 1) (next_conn (attach ep e)))) \/
  (exists buf ep s,
     next_id e <= INT32_MAX /\ outstanding s = None /\
     r = (next_id e,
          mk_engine (<[next_id e := mk_tag buf (attached ep e) s]> (tags e))
                    (conns (attach ep e)) (next_id e + 1) (next_conn (attach ep e)))).
Proof.
  unfold plc_tag_create. cbv zeta. destruct attributes as [cfg|]; [|eauto].
  destruct (_ && _); [|eauto].
  destruct (Z.leb_spec (next_id e) INT32_MAX); [|eauto].
  assert (Hreg : forall s, outstanding s = None ->
    exists buf ep s',
      next_id e <= INT32_MAX /\ outstanding s' = None /\
      (next_id e,
       mk_engine (<[next_id e := mk_tag (replicate (Z.to_nat (buffer_capacity cfg)) x00)
                                        (attached (endpoint cfg) e) s]> (tags e))
                 (conns (attach (endpoint cfg) e)) (next_id e + 1)
                 (next_conn (attach (endpoint cfg) e)))
      = (next_id e,
         mk_engine (<[next_id e := mk_tag buf (attached ep e) s']> (tags e))
                   (conns (attach ep e)) (next_id e + 1) (next_conn (attach ep e)))).
  { intros s Hs. eexists _, _, s. split; [assumption|]. split; [exact Hs|reflexivity]. }
  destruct (timeout =? 0); [right; right; apply Hreg; reflexivity|].
  destruct waited; [right; left; eauto | right; right; apply Hreg; reflexivity].
Qed.

Lemma inv_create e attributes timeout waited :
  inv e -> inv (plc_tag_create e attributes timeout waited).2.
Proof.
  intros He.
  destruct (create_cases e attributes timeout waited)
    as [[err ->]|[[err [ep ->]]|[buf [ep [s [_ [Hs ->]]]]]]]; cbn [snd].
  - exact He.
  - apply inv_bump; [exact He|lia|apply attach_next_conn].
  - apply inv_register; assumption.
Qed.

Lemma step_inv e e' : inv e -> step e e' -> inv e'.
Proof.
  intros He Hs. destruct Hs.
  - apply inv_create, He.
  - apply (inv_request e h timeout Reading); auto.
  - apply (inv_request e h timeout Writing); auto.
  - unfold plc_tag_abort. pose proof (inv_cancel e h ERR_ABORT He) as H.
    destruct (tags e !! h) as [t|]; [|exact He].
    destruct (outstanding (tag_state t)); exact H.
  - unfold plc_tag_destroy. destruct (tags e !! h) as [t|] eqn:Ht; [|exact He].
    pose proof (inv_release e h t He Ht) as H.
    unfold plc_tag_destroy in H. rewrite Ht in H. exact H.
  - eapply inv_deliver; eauto.
  - apply inv_connected, He.
  - apply (inv_cancel e h ERR_TIMEOUT He).
Qed.

Lemma steps_inv e e' : inv e -> rtc step e e' -> inv e'.
Proof. intros He Hs. induction Hs; eauto using step_inv. Qed.

Lemma reachable_inv e : reachable e -> inv e.
Proof. apply steps_inv, inv_init. Qed.

(** A response is never applied to a released tag. *)
Lemma deliver_is_Some e c corr r : inv e -> is_Some (deliver e c corr r).
Proof.
  intros He. unfold deliver.
  destruct (conns e !! c) as [cn|] eqn:Hcn; [|eauto].
  destruct (conn_pending cn !! corr) as [h|] eqn:Hl; [|eauto].
  destruct (inv_pending e He _ _ _ _ Hcn Hl) as [t [Ht _]].
  rewrite Ht. cbn. eauto.
Qed.

(** *** Requests that are over *)

(** The request [corr] of Connection [c] is over for good: it has been
    issued and is queued no more, or the Connection has been closed.  [cs] is
    the Connection set and [nc] the number of the next Connection. *)
Definition spent (c corr : Z) (cs : gmap Z connection) (nc : Z) : Prop :=
  match cs !! c with
  | Some cn => corr < conn_next cn /\ conn_pending cn !! corr = None
  | None => c < nc
  end.

Lemma spent_discards e c corr r :
  spent c corr (conns e) (next_conn e) -> deliver e c corr r = Some e.
Proof.
  unfold spent, deliver. destruct (conns e !! c) as [cn|]; [|reflexivity].
  intros [_ ->]. reflexivity.
Qed.

Lemma spent_mono c corr cs nc nc' :
  nc <= nc' -> spent c corr cs nc -> spent c corr cs nc'.
Proof. unfold spent. destruct (cs !! c); [auto|lia]. Qed.

Lemma spent_attach ep e c corr :
  (forall c cn, conns e !! c = Some cn -> c < next_conn e) ->
  spent c corr (conns e) (next_conn e) ->
  spent c corr (conns (attach ep e)) (next_conn (attach ep e)).
Proof.
  intros Hcs. unfold spent, attach.
  destruct (find_connection ep (conns e)); [auto|]. cbn [conns next_conn].
  destruct (conns e !! c) as [cn|] eqn:Hcn.
  - rewrite lookup_insert_ne by (specialize (Hcs _ _ Hcn); lia).
    rewrite Hcn. auto.
  - intros Hlt. rewrite lookup_insert_ne by lia. rewrite Hcn. lia.
Qed.

Lemma spent_enqueue c corr c' h cs nc :
  spent c corr cs nc -> spent c corr (enqueue c' h cs) nc.
Proof.
  unfold spent, enqueue. destruct (cs !! c') as [cn'|] eqn:Hcn'; [|auto].
  destruct (decide (c' = c)) as [->|Hne].
  - rewrite Hcn', lookup_insert_eq. cbn. intros [Hlt Hp].
    split; [lia|]. rewrite lookup_insert_ne by lia. exact Hp.
  - rewrite lookup_insert_ne by exact Hne. auto.
Qed.

Lemma spent_retire c corr c' corr' cs nc :
  spent c corr cs nc -> spent c corr (retire c' corr' cs) nc.
Proof.
  unfold spent, retire. destruct (cs !! c') as [cn'|] eqn:Hcn'; [|auto].
  destruct (decide (c' = c)) as [->|Hne].
  - rewrite Hcn', lookup_insert_eq. cbn. intros [Hlt Hp].
    split; [exact Hlt|]. destruct (decide (corr' = corr)) as [->|Hne].
    + apply lookup_delete_eq.
    + rewrite lookup_delete_ne by exact Hne. exact Hp.
  - rewrite lookup_insert_ne by exact Hne. auto.
Qed.

Lemma spent_settled c corr t cs nc :
  spent c corr cs nc -> spent c corr (settled t cs) nc.
Proof.
  unfold settled. destruct (outstanding (tag_state t)); [apply spent_retire|auto].
Qed.

Lemma spent_delete c corr c' cs nc :
  (forall cn, cs !! c' = Some cn -> c' < nc) ->
  spent c corr cs nc -> spent c corr (delete c' cs) nc.
Proof.
  intros Hlt. unfold spent. destruct (decide (c' = c)) as [->|Hne].
  - rewrite lookup_delete_eq. destruct (cs !! c) as [cn|]; [eauto|auto].
  - rewrite lookup_delete_ne by exact Hne. auto.
Qed.

Lemma spent_retired c corr cs nc cn :
  cs !! c = Some cn -> corr < conn_next cn -> spent c corr (retire c corr cs) nc.
Proof.
  intros Hcn Hlt. unfold spent, retire. rewrite Hcn, lookup_insert_eq. cbn.
  split; [exact Hlt|apply lookup_delete_eq].
Qed.

(** Once a request is over it stays so, whatever the engine does next. *)
Lemma step_spent e e' c corr :
  inv e -> step e e' -> spent c corr (conns e) (next_conn e) ->
  spent c corr (conns e') (next_conn e').
Proof.
  intros He Hs Hsp.
  destruct Hs as [e attributes timeout waited|e h0 timeout|e h0 timeout|e h0|e h0
                 |e c0 corr0 r e' H|e h0 outcome|e h0].
  - destruct (create_cases e attributes timeout waited)
      as [[err ->]|[[err [ep ->]]|[buf [ep [s [_ [_ ->]]]]]]];
      cbn [snd conns next_conn].
    + exact Hsp.
    + eapply spent_mono; [apply attach_next_conn|exact Hsp].
    + apply spent_attach; [apply (inv_conns e He)|exact Hsp].
  - unfold plc_tag_read, issue. destruct (tags e !! h0); [|exact Hsp].
    destruct (busy _); cbn [snd conns next_conn]; [exact Hsp|apply spent_enqueue, Hsp].
  - unfold plc_tag_write, issue. destruct (tags e !! h0); [|exact Hsp].
    destruct (busy _); cbn [snd conns next_conn]; [exact Hsp|apply spent_enqueue, Hsp].
  - unfold plc_tag_abort. destruct (tags e !! h0); [|exact Hsp].
    destruct (outstanding _); cbn [snd conns next_conn];
      [apply spent_retire, Hsp|exact Hsp].
  - unfold plc_tag_destroy. destruct (tags e !! h0) as [t0|] eqn:Ht0; [|exact Hsp].
    cbn [snd conns next_conn]. fold (settled t0 (conns e)).
    destruct (referenced (tag_conn t0) (delete h0 (tags e)));
      [apply spent_settled, Hsp|].
    apply spent_delete; [|apply spent_settled, Hsp].
    intros cn Hcn. apply lookup_settled in Hcn as [cn0 [Hcn0 _]].
    exact (inv_conns e He _ _ Hcn0).
  - unfold deliver in H. destruct (conns e !! c0); [|injection H as <-; exact Hsp].
    destruct (_ !! corr0) as [h0|]; [|injection H as <-; exact Hsp].
    destruct (tags e !! h0) as [t|]; [|discriminate]. cbn in H. injection H as <-.
    cbn [conns next_conn]. apply spent_retire, Hsp.
  - unfold connected. destruct (tags e !! h0); [|exact Hsp].
    destruct (tag_state _); exact Hsp.
  - unfold expire. destruct (tags e !! h0); [|exact Hsp].
    destruct (outstanding _); [apply spent_retire, Hsp|exact Hsp].
Qed.

Lemma steps_spent e e' c corr :
  inv e -> rtc step e e' -> spent c corr (conns e) (next_conn e) ->
  spent c corr (conns e') (next_conn e').
Proof.
  intros He Hs. induction Hs as [|e1 e2 e3 Hs _ IH]; [auto|].
  intros Hsp. apply IH; [eapply step_inv; eauto | eapply step_spent; eauto].
Qed.

Lemma abort_spent e h t corr :
  inv e -> tags e !! h = Some t -> outstanding (tag_state t) = Some corr ->
  spent (tag_conn t) corr (conns (plc_tag_abort e h).2) (next_conn (plc_tag_abort e h).2).
Proof.
  intros He Ht Ho. unfold plc_tag_abort. rewrite Ht, Ho. cbn [snd conns next_conn].
  destruct (inv_issued e He _ _ _ Ht Ho) as [cn [Hcn Hlt]].
  eapply spent_retired; eauto.
Qed.

(** A response that arrives for a request that was issued leaves it over,
    applied or not. *)
Lemma deliver_spent e h t corr r e' :
  inv e -> tags e !! h = Some t -> outstanding (tag_state t) = Some corr ->
  deliver e (tag_conn t) corr r = Some e' ->
  spent (tag_conn t) corr (conns e') (next_conn e').
Proof.
  intros He Ht Ho. destruct (inv_issued e He _ _ _ Ht Ho) as [cn [Hcn Hlt]].
  unfold deliver. rewrite Hcn.
  destruct (conn_pending cn !! corr) as [h0|] eqn:Hp.
  - destruct (tags e !! h0) as [t0|]; [|discriminate]. cbn. intros [= <-].
    cbn [conns next_conn]. eapply spent_retired; eauto.
  - intros [= <-]. unfold spent. rewrite Hcn. auto.
Qed.

(** *** Handles *)

(** What one transition does to a handle: nothing, a change of the tag it
    names that keeps its connection, its allocation, or its release by
    [plc_tag_destroy]. *)
Inductive handle_change (e e' : engine) (h : Z) : Prop :=
| handle_same : tags e' !! h = tags e !! h -> handle_change e e' h
| handle_updated t t' :
    tags e !! h = Some t -> tags e' !! h = Some t' -> tag_conn t' = tag_conn t ->
    handle_change e e' h
| handle_allocated :
    tags e !! h = None -> h = next_id e -> is_Some (tags e' !! h) ->
    handle_change e e' h
| handle_released :
    is_Some (tags e !! h) -> e' = (plc_tag_destroy e h).2 -> tags e' !! h = None ->
    handle_change e e' h.

Lemma change_insert e e' h2 t2 t2' h :
  tags e !! h2 = Some t2 -> tag_conn t2' = tag_conn t2 ->
  tags e' = <[h2 := t2']> (tags e) -> handle_change e e' h.
Proof.
  intros Ht Hc He'. destruct (decide (h2 = h)) as [->|Hne].
  - eapply handle_updated; [exact Ht|rewrite He'; apply lookup_insert_eq|exact Hc].
  - apply handle_same. rewrite He'. apply lookup_insert_ne, Hne.
Qed.

Lemma step_next_id e e' : step e e' -> next_id e <= next_id e'.
Proof.
  intros Hs.
  destruct Hs as [e attributes timeout waited|e h0 timeout|e h0 timeout|e h0|e h0
                 |e c0 corr0 r e' H|e h0 outcome|e h0].
  - destruct (create_cases e attributes timeout waited)
      as [[err ->]|[[err [ep ->]]|[buf [ep [s [_ [_ ->]]]]]]]; cbn; lia.
  - unfold plc_tag_read, issue. destruct (tags e !! h0); [|reflexivity].
    destruct (busy _); cbn; lia.
  - unfold plc_tag_write, issue. destruct (tags e !! h0); [|reflexivity].
    destruct (busy _); cbn; lia.
  - unfold plc_tag_abort. destruct (tags e !! h0); [|reflexivity].
    destruct (outstanding _); cbn; lia.
  - unfold plc_tag_destroy. destruct (tags e !! h0); cbn; lia.
  - unfold deliver in H. destruct (conns e !! c0); [|injection H as <-; lia].
    destruct (_ !! corr0) as [h1|]; [|injection H as <-; lia].
    destruct (tags e !! h1); [|discriminate]. cbn in H. injection H as <-. cbn. lia.
  - unfold connected. destruct (tags e !! h0); [|lia].
    destruct (tag_state _); cbn; lia.
  - unfold expire. destruct (tags e !! h0); [|lia].
    destruct (outstanding _); cbn; lia.
Qed.

Lemma steps_next_id e e' : rtc step e e' -> next_id e <= next_id e'.
Proof.
  induction 1 as [|e1 e2 e3 Hs _ IH]; [lia|].
  pose proof (step_next_id _ _ Hs). lia.
Qed.

Lemma step_handle e e' h : inv e -> step e e' -> handle_change e e' h.
Proof.
  intros He Hs.
  destruct Hs as [e attributes timeout waited|e h0 timeout|e h0 timeout|e h0|e h0
                 |e c0 corr0 r e' H|e h0 outcome|e h0].
  - destruct (create_cases e attributes timeout waited)
      as [[err ->]|[[err [ep ->]]|[buf [ep [s [_ [_ ->]]]]]]]; cbn [snd].
    + apply handle_same. reflexivity.
    + apply handle_same. reflexivity.
    + destruct (decide (next_id e = h)) as [<-|Hne].
      * apply handle_allocated; cbn [tags]; [|reflexivity|rewrite lookup_insert_eq; eauto].
        destruct (tags e !! next_id e) as [t|] eqn:Ht; [|reflexivity].
        pose proof (inv_handles e He _ _ Ht). lia.
      * apply handle_same. cbn. apply lookup_insert_ne, Hne.
  - unfold plc_tag_read, issue. destruct (tags e !! h0) as [t|] eqn:Ht;
      [|apply handle_same; reflexivity].
    destruct (busy _); cbn [snd]; [apply handle_same; reflexivity|].
    eapply (change_insert _ _ h0 t); [exact Ht| |reflexivity]. reflexivity.
  - unfold plc_tag_write, issue. destruct (tags e !! h0) as [t|] eqn:Ht;
      [|apply handle_same; reflexivity].
    destruct (busy _); cbn [snd]; [apply handle_same; reflexivity|].
    eapply (change_insert _ _ h0 t); [exact Ht| |reflexivity]. reflexivity.
  - unfold plc_tag_abort. destruct (tags e !! h0) as [t|] eqn:Ht;
      [|apply handle_same; reflexivity].
    destruct (outstanding _); cbn [snd]; [|apply handle_same; reflexivity].
    eapply (change_insert _ _ h0 t); [exact Ht| |reflexivity]. reflexivity.
  - destruct (decide (h0 = h)) as [->|Hne].
    + destruct (tags e !! h) as [t|] eqn:Ht.
      * apply handle_released; [rewrite Ht; eauto|reflexivity|].
        unfold plc_tag_destroy. rewrite Ht. cbn. apply lookup_delete_eq.
      * apply handle_same. unfold plc_tag_destroy. rewrite Ht. cbn. exact Ht.
    + apply handle_same. unfold plc_tag_destroy.
      destruct (tags e !! h0); [|reflexivity]. cbn. apply lookup_delete_ne, Hne.
  - unfold deliver in H.
    destruct (conns e !! c0); [|injection H as <-; apply handle_same; reflexivity].
    destruct (_ !! corr0) as [h0|]; [|injection H as <-; apply handle_same; reflexivity].
    destruct (tags e !! h0) as [t|] eqn:Ht; [|discriminate]. cbn in H. injection H as <-.
    eapply (change_insert _ _ h0 t); [exact Ht| |reflexivity].
    destruct t as [buf c1 s]; destruct r, s; reflexivity.
  - unfold connected. destruct (tags e !! h0) as [t|] eqn:Ht;
      [|apply handle_same; reflexivity].
    destruct (tag_state t); try (apply handle_same; reflexivity).
    eapply (change_insert _ _ h0 t); [exact Ht| |reflexivity]. reflexivity.
  - unfold expire. destruct (tags e !! h0) as [t|] eqn:Ht;
      [|apply handle_same; reflexivity].
    destruct (outstanding _); [|apply handle_same; reflexivity].
    eapply (change_insert _ _ h0 t); [exact Ht| |reflexivity]. reflexivity.
Qed.

(** A handle that was released names no tag again. *)
Lemma released_stays e e' h :
  inv e -> tags e !! h = None -> h < next_id e -> rtc step e e' ->
  tags e' !! h = None.
Proof.
  intros He Hd Hlt Hs. induction Hs as [|e1 e2 e3 Hs _ IH]; [exact Hd|].
  pose proof (step_next_id _ _ Hs) as Hn.
  apply IH; [eapply step_inv; eauto| |lia].
  destruct (step_handle e1 e2 h He Hs) as [Hsame|t0 t' Ht0|Hnone Hh _|_ _ Hgone].
  - rewrite Hsame. exact Hd.
  - congruence.
  - lia.
  - exact Hgone.
Qed.

(** C5. A read on a tag that has an outstanding request fails with the
    not-ready error and leaves the engine, the request in flight included, as
    it was. *)
Theorem read_outstanding_not_ready (e : engine) (h timeout : Z) (t : tag) (corr : Z) :
  tags e !! h = Some t ->
  outstanding (tag_state t) = Some corr ->
  plc_tag_read e h timeout = (Done (ERR ERR_NOT_READY), e).
Proof.
  intros Ht Ho. unfold plc_tag_read. rewrite Ht.
  rewrite (outstanding_busy _ _ Ho). reflexivity.
Qed.

Lemma example_reading_reachable : reachable example_reading.
Proof.
  eapply rtc_l; [apply (step_create init (Some example_config) 5000 None)|].
  eapply rtc_l; [apply (step_read example_created 1 0)|].
  apply rtc_refl.
Qed.

Lemma read_outstanding_not_ready_witness :
  tags example_reading !! 1 = Some example_tag /\
  outstanding (tag_state example_tag) = Some 0 /\
  plc_tag_read example_reading 1 5000 = (Done (ERR ERR_NOT_READY), example_reading).
Proof.
  assert (H1 : tags example_reading !! 1 = Some example_tag) by reflexivity.
  assert (H2 : outstanding (tag_state example_tag) = Some 0) by reflexivity.
  split; [exact H1|]. split; [exact H2|].
  exact (read_outstanding_not_ready example_reading 1 5000 example_tag 0 H1 H2).
Defined.

(** C6. The sign of what [plc_tag_create] returns decides, in every state
    the engine can reach and for every call: a result that is not negative
    is a handle, not in use before and naming a tag from then on; a negative
    result is an error code and no tag was added; and every result fits the
    [int32_t] the callers hold it in.  A handle names its tag, on the same
    Connection, until [plc_tag_destroy] is called on it, and no later
    creation returns it again. *)
Theorem create_handle_or_error
    (e : engine) (attributes : option config) (timeout : Z)
    (waited : option error_code) :
  reachable e ->
  let r := (plc_tag_create e attributes timeout waited).1 in
  let e' := (plc_tag_create e attributes timeout waited).2 in
  INT32_MIN <= r <= INT32_MAX /\
  ((0 <= r /\ tags e !! r = None /\ is_Some (tags e' !! r)) \/
   (r < 0 /\ (exists err, r = encode (ERR err)) /\ tags e' = tags e)) /\
  (forall e1 e2, rtc step e' e1 -> step e1 e2 ->
     is_Some (tags e1 !! r) ->
     (is_Some (tags e2 !! r) /\ tag_conn <$> tags e2 !! r = tag_conn <$> tags e1 !! r) \/
     e2 = (plc_tag_destroy e1 r).2) /\
  (forall e1 attributes' timeout' waited', rtc step e' e1 -> 0 <= r ->
     (plc_tag_create e1 attributes' timeout' waited').1 <> r).
Proof.
  intros Hr r e'.
  pose proof (reachable_inv e Hr) as He.
  assert (He' : inv e') by apply inv_create, He.
  pose proof (inv_next e He) as Hn.
  split; [|split; [|split]].
  - subst r e'.
    destruct (create_cases e attributes timeout waited)
      as [[err ->]|[[err [ep ->]]|[buf [ep [s [Hmax [_ ->]]]]]]]; cbn [fst].
    + apply encode_int32.
    + apply encode_int32.
    + unfold INT32_MIN. lia.
  - subst r e'.
    destruct (create_cases e attributes timeout waited)
      as [[err ->]|[[err [ep ->]]|[buf [ep [s [_ [_ ->]]]]]]]; cbn [fst snd tags].
    + right. split; [apply encode_err_negative|]. eauto.
    + right. split; [apply encode_err_negative|]. eauto.
    + left. split; [lia|]. split.
      * destruct (tags e !! next_id e) as [t|] eqn:Ht; [|reflexivity].
        pose proof (inv_handles e He _ _ Ht). lia.
      * rewrite lookup_insert_eq. eauto.
  - intros e1 e2 Hs1 Hs2 [t1 Ht1].
    pose proof (steps_inv _ _ He' Hs1) as He1.
    destruct (step_handle e1 e2 r He1 Hs2)
      as [Hsame|t0 t' Ht0 Ht' Hc|Hnone _ _|_ Hd _].
    + left. rewrite Hsame, Ht1. eauto.
    + left. rewrite Ht', Ht0. cbn. split; [eauto|congruence].
    + congruence.
    + right. exact Hd.
  - intros e1 attributes' timeout' waited' Hs1 Hr0.
    pose proof (steps_next_id _ _ Hs1) as Hle.
    assert (Hlt : r < next_id e').
    { subst r e'.
      destruct (create_cases e attributes timeout waited)
        as [[err E]|[[err [ep E]]|[buf [ep [s [_ [_ E]]]]]]];
        rewrite E in *; cbn [fst snd next_id] in *;
        try (pose proof (encode_err_negative err); lia). lia. }
    destruct (create_cases e1 attributes' timeout' waited')
      as [[err ->]|[[err [ep ->]]|[buf [ep [s [_ [_ ->]]]]]]]; cbn [fst];
      try (pose proof (encode_err_negative err); lia). lia.
Qed.

(** [open_tag] of [stress_api_lock.c] tells success from failure by the sign
    of what [plc_tag_create] returned: it hands back a handle that names a
    tag, or a negative error code with no tag left behind; 0 is never a
    handle. *)
Lemma open_tag_sign (e : engine) (tag_str : option config) (waited : option error_code) :
  reachable e ->
  let r := (open_tag e tag_str waited).1 in
  let e' := (open_tag e tag_str waited).2 in
  (0 < r /\ is_Some (tags e' !! r) /\ plc_tag_status e' r = STATUS_OK) \/
  (r < 0 /\ r = encode (ERR ERR_CREATE) /\ tags e' = tags e).
Proof.
  intros Hr. pose proof (reachable_inv e Hr) as He.
  pose proof (inv_next e He) as Hn.
  assert (Hfail : forall err e0, tags e0 = tags e ->
    (let '(tag, e1) := (encode (ERR err), e0) in
     if tag <? 0 then (encode (ERR ERR_CREATE), e1)
     else
       let rc := plc_tag_status e1 tag in
       if negb (is_ok rc) then (encode rc, (plc_tag_destroy e1 tag).2) else (tag, e1))
    = (encode (ERR ERR_CREATE), e0)).
  { intros err e0 _. cbv beta iota zeta.
    rewrite (proj2 (Z.ltb_lt _ _) (encode_err_negative err)). reflexivity. }
  unfold open_tag, plc_tag_create, DATA_TIMEOUT. cbv zeta.
  destruct tag_str as [cfg|].
  2:{ right. rewrite Hfail by reflexivity. cbn. split; [lia|split; reflexivity]. }
  destruct (_ && _).
  2:{ right. rewrite Hfail by reflexivity. cbn. split; [lia|split; reflexivity]. }
  destruct (Z.leb_spec (next_id e) INT32_MAX).
  2:{ right. rewrite Hfail by reflexivity. cbn. split; [lia|split; reflexivity]. }
  cbn [Z.eqb]. destruct waited as [err|].
  - right. rewrite Hfail by reflexivity. cbn. split; [lia|split; reflexivity].
  - left. cbv beta iota. rewrite (proj2 (Z.ltb_ge _ _)) by lia.
    match goal with
    | |- context [plc_tag_status ?x ?h] =>
        assert (Hst : plc_tag_status x h = STATUS_OK)
          by (unfold plc_tag_status; cbn [tags]; rewrite lookup_insert_eq; reflexivity);
        rewrite !Hst
    end.
    cbn [is_ok negb fst snd tags]. rewrite lookup_insert_eq.
    split; [lia|]. split; [eauto|exact Hst].
Qed.

Lemma create_handle_or_error_witness :
  reachable init /\
  (plc_tag_create init (Some example_config) 5000 None).1 = 1 /\
  (plc_tag_create init None 5000 None).1 = -2 /\
  (plc_tag_create example_created (Some example_config) 0 None).1 <> 1.
Proof.
  assert (Hr : reachable init) by apply rtc_refl.
  destruct (create_handle_or_error init (Some example_config) 5000 None Hr)
    as [_ [_ [_ Hfresh]]].
  split; [exact Hr|].
  split; [reflexivity|]. split; [reflexivity|].
  apply (Hfresh example_created (Some example_config) 0 None (rtc_refl _ _)).
  change (0 <= 1). lia.
Defined.

(** C7. Whatever the order of the calls and of the arrivals, no response is
    ever applied to a tag that has been released.  Once an outstanding
    request is aborted, a response that carries its correlation id is
    discarded in every state the engine reaches afterwards, the destroy and
    whatever follows it included: it leaves the engine, every buffer
    included, as it is.  The same holds when the response arrived before the
    abort: it was applied once, to the tag that was still there, and a
    second one is discarded.  After the destroy the handle names no tag
    again. *)
Theorem abort_then_destroy_safe (e : engine) (h : Z) (t : tag) (corr : Z) :
  reachable e ->
  tags e !! h = Some t ->
  outstanding (tag_state t) = Some corr ->
  let aborted := (plc_tag_abort e h).2 in
  let destroyed := (plc_tag_destroy aborted h).2 in
  (forall e1, rtc step e e1 ->
     forall c' corr' r, is_Some (deliver e1 c' corr' r)) /\
  (forall e1, rtc step aborted e1 ->
     forall r, deliver e1 (tag_conn t) corr r = Some e1) /\
  (forall r arrived, deliver e (tag_conn t) corr r = Some arrived ->
     is_Some (tags arrived !! h) /\
     forall e1, rtc step arrived e1 ->
       forall r', deliver e1 (tag_conn t) corr r' = Some e1) /\
  rtc step aborted destroyed /\
  (forall e1, rtc step destroyed e1 -> tags e1 !! h = None).
Proof.
  intros Hr Ht Ho aborted destroyed.
  pose proof (reachable_inv e Hr) as He.
  assert (Ha : inv aborted) by exact (step_inv _ _ He (step_abort e h)).
  assert (Hd : inv destroyed) by exact (step_inv _ _ Ha (step_destroy aborted h)).
  split; [|split; [|split; [|split]]].
  - intros e1 Hs c' corr' r. apply deliver_is_Some.
    exact (steps_inv _ _ He Hs).
  - intros e1 Hs r. apply spent_discards.
    apply (steps_spent aborted e1 _ _ Ha Hs).
    exact (abort_spent e h t corr He Ht Ho).
  - intros r arrived Hdel.
    assert (Harr : inv arrived) by exact (inv_deliver _ _ _ _ _ He Hdel).
    split.
    + unfold deliver in Hdel.
      destruct (conns e !! tag_conn t) as [cn|];
        [|injection Hdel as <-; rewrite Ht; eauto].
      destruct (conn_pending cn !! corr) as [h0|];
        [|injection Hdel as <-; rewrite Ht; eauto].
      destruct (tags e !! h0) as [t0|]; [|discriminate].
      cbn in Hdel. injection Hdel as <-. cbn [tags].
      destruct (decide (h0 = h)) as [->|Hne].
      * rewrite lookup_insert_eq. eauto.
      * rewrite lookup_insert_ne by exact Hne. rewrite Ht. eauto.
    + intros e1 Hs r'. apply spent_discards.
      apply (steps_spent arrived e1 _ _ Harr Hs).
      exact (deliver_spent e h t corr r arrived He Ht Ho Hdel).
  - apply rtc_once. apply step_destroy.
  - intros e1 Hs.
    assert (Hta : is_Some (tags aborted !! h)).
    { unfold aborted, plc_tag_abort. rewrite Ht, Ho. cbn. rewrite lookup_insert_eq. eauto. }
    destruct Hta as [ta Hta].
    apply (released_stays destroyed e1 h Hd); [| |exact Hs].
    + unfold destroyed, plc_tag_destroy. rewrite Hta. cbn. apply lookup_delete_eq.
    + unfold destroyed, plc_tag_destroy. rewrite Hta. cbn [snd next_id].
      pose proof (inv_handles aborted Ha _ _ Hta). lia.
Qed.

Lemma example_second_after_abort :
  rtc step (plc_tag_abort example_reading 1).2 example_second.
Proof.
  eapply rtc_l; [apply (step_destroy (plc_tag_abort example_reading 1).2 1)|].
  eapply rtc_l;
    [apply (step_create example_destroyed (Some example_config) 5000 None)|].
  eapply rtc_l;
    [apply (step_read (plc_tag_create example_destroyed (Some example_config) 5000
                         None).2 2 0)|].
  apply rtc_refl.
Qed.

Lemma abort_then_destroy_safe_witness :
  reachable example_reading /\
  tags example_reading !! 1 = Some example_tag /\
  outstanding (tag_state example_tag) = Some 0 /\
  is_Some (deliver example_reading 0 0 (Reply [x2a; x00; x00; x00])) /\
  deliver example_destroyed 0 0 (Reply [x2a; x00; x00; x00]) = Some example_destroyed /\
  tags example_second !! 2 = Some (mk_tag [x00; x00; x00; x00] 1 (Reading 0)) /\
  deliver example_second 0 0 (Reply [x2a; x00; x00; x00]) = Some example_second.
Proof.
  assert (H1 : tags example_reading !! 1 = Some example_tag) by reflexivity.
  assert (H2 : outstanding (tag_state example_tag) = Some 0) by reflexivity.
  destruct (abort_then_destroy_safe example_reading 1 example_tag 0
              example_reading_reachable H1 H2) as [Hsafe [Hlate [_ [Hdes _]]]].
  split; [exact example_reading_reachable|]. split; [exact H1|]. split; [exact H2|].
  split; [exact (Hsafe example_reading (rtc_refl _ _) 0 0 _)|].
  split; [exact (Hlate example_destroyed Hdes _)|].
  split; [reflexivity|].
  exact (Hlate example_second example_second_after_abort _).
Defined.
(** * More about hash.c *)

(** ** [mix] is reversible *)

Lemma mix_lines s :
  mix s = line_c 15 (line_b 10 (line_a 3 (line_c 5 (line_b 16 (line_a 12
            (line_c 13 (line_b 8 (line_a 13 s)))))))).
Proof. destruct s as [[a b] c]. reflexivity. Qed.

Lemma xor_cancel x y : U32.xor (U32.xor x y) y = x.
Proof. unfold U32.xor. rewrite Z.lxor_assoc, Z.lxor_nilpotent. apply Z.lxor_0_r. Qed.

Lemma add_sub_cancel x y : U32.in_range x -> U32.add (U32.sub x y) y = x.
Proof.
  intros Hx. unfold U32.add, U32.sub. rewrite wrap_plus_l.
  replace (x - y + y) with x by lia. apply wrap_small, Hx.
Qed.

Lemma sub_add_cancel x y : U32.in_range x -> U32.sub (U32.add x y) y = x.
Proof.
  intros Hx. unfold U32.add, U32.sub, U32.wrap.
  rewrite Zminus_mod_idemp_l. replace (x + y - y) with x by lia.
  apply wrap_small, Hx.
Qed.

Ltac range3 :=
  unfold in_range3 in *; cbn [fst snd] in *;
  repeat match goal with H : _ /\ _ /\ _ |- _ => destruct H as [? [? ?]] end;
  split; [|split];
  repeat first [ assumption | apply xor_range | apply sub_range | apply add_range
               | apply shl_range | apply shr_range; [lia|] ].

Lemma line_a_range k s : 0 <= k -> in_range3 s -> in_range3 (line_a k s).
Proof. destruct s as [[a b] c]. intros Hk H. unfold line_a. range3. Qed.
Lemma line_b_range k s : in_range3 s -> in_range3 (line_b k s).
Proof. destruct s as [[a b] c]. intros H. unfold line_b. range3. Qed.
Lemma line_c_range k s : 0 <= k -> in_range3 s -> in_range3 (line_c k s).
Proof. destruct s as [[a b] c]. intros Hk H. unfold line_c. range3. Qed.
Lemma back_a_range k s : in_range3 s -> in_range3 (back_a k s).
Proof. destruct s as [[a b] c]. intros H. unfold back_a. range3. Qed.
Lemma back_b_range k s : in_range3 s -> in_range3 (back_b k s).
Proof. destruct s as [[a b] c]. intros H. unfold back_b. range3. Qed.
Lemma back_c_range k s : in_range3 s -> in_range3 (back_c k s).
Proof. destruct s as [[a b] c]. intros H. unfold back_c. range3. Qed.

Lemma back_line_a k s : in_range3 s -> back_a k (line_a k s) = s.
Proof.
  destruct s as [[a b] c]. intros [Ha _]. cbn [fst snd] in Ha.
  unfold back_a, line_a. rewrite xor_cancel, !add_sub_cancel; auto using sub_range.
Qed.
Lemma back_line_b k s : in_range3 s -> back_b k (line_b k s) = s.
Proof.
  destruct s as [[a b] c]. intros [_ [Hb _]]. cbn [fst snd] in Hb.
  unfold back_b, line_b. rewrite xor_cancel, !add_sub_cancel; auto using sub_range.
Qed.
Lemma back_line_c k s : in_range3 s -> back_c k (line_c k s) = s.
Proof.
  destruct s as [[a b] c]. intros [_ [_ Hc]]. cbn [fst snd] in Hc.
  unfold back_c, line_c. rewrite xor_cancel, !add_sub_cancel; auto using sub_range.
Qed.

Lemma line_back_a k s : 0 <= k -> in_range3 s -> line_a k (back_a k s) = s.
Proof.
  destruct s as [[a b] c]. intros Hk [Ha [Hb Hc]]. cbn [fst snd] in *.
  unfold back_a, line_a.
  rewrite !sub_add_cancel, xor_cancel; auto using add_range, xor_range, shr_range.
Qed.
Lemma line_back_b k s : in_range3 s -> line_b k (back_b k s) = s.
Proof.
  destruct s as [[a b] c]. intros [Ha [Hb Hc]]. cbn [fst snd] in *.
  unfold back_b, line_b.
  rewrite !sub_add_cancel, xor_cancel; auto using add_range, xor_range, shl_range.
Qed.
Lemma line_back_c k s : 0 <= k -> in_range3 s -> line_c k (back_c k s) = s.
Proof.
  destruct s as [[a b] c]. intros Hk [Ha [Hb Hc]]. cbn [fst snd] in *.
  unfold back_c, line_c.
  rewrite !sub_add_cancel, xor_cancel; auto using add_range, xor_range, shr_range.
Qed.

Create HintDb lines.
#[local] Hint Resolve line_a_range line_b_range line_c_range
  back_a_range back_b_range back_c_range : lines.

(** X1. [mix] is a one-to-one map of the triples of 32-bit words onto
    themselves ("mix 3 32-bit values reversibly"): [unmix] undoes it, and it
    undoes [unmix]. *)
Theorem mix_reversible (s : acc) :
  in_range3 s ->
  unmix (mix s) = s /\ mix (unmix s) = s /\ in_range3 (mix s) /\ in_range3 (unmix s).
Proof.
  intros Hs. rewrite !mix_lines. unfold unmix.
  split; [|split; [|split]].
  - rewrite back_line_c, back_line_b, back_line_a, back_line_c, back_line_b,
      back_line_a, back_line_c, back_line_b, back_line_a;
      auto 12 with lines zarith.
  - rewrite line_back_a, line_back_b, line_back_c, line_back_a, line_back_b,
      line_back_c, line_back_a, line_back_b, line_back_c;
      auto 12 with lines zarith.
  - auto 12 with lines zarith.
  - auto 12 with lines zarith.
Qed.

(** ** [mix2] is [mix] on wider words *)

Section WideWords.

Variable w : Z.
Hypothesis w_wide : 32 <= w.

Lemma low_wide x : U32.wrap (x mod 2 ^ w) = U32.wrap x.
Proof.
  unfold U32.wrap, U32.modulus. apply Z.mod_mod_divide.
  exists (2 ^ (w - 32)). rewrite <- Z.pow_add_r by lia. f_equal. lia.
Qed.

Lemma low_sub x y : U32.wrap (Wide.sub w x y) = U32.sub (U32.wrap x) (U32.wrap y).
Proof.
  unfold Wide.sub. rewrite low_wide. unfold U32.sub, U32.wrap.
  apply Zminus_mod.
Qed.

Lemma low_shl x k : 0 <= k -> U32.wrap (Wide.shl w x k) = U32.shl (U32.wrap x) k.
Proof.
  intros Hk. unfold Wide.shl. rewrite low_wide. unfold U32.shl, U32.wrap.
  rewrite !Z.shiftl_mul_pow2 by lia. symmetry. apply Z.mul_mod_idemp_l.
  unfold U32.modulus. lia.
Qed.

End WideWords.

Lemma low_ones x : U32.wrap x = Z.land x (Z.ones 32).
Proof. unfold U32.wrap, U32.modulus. symmetry. apply Z.land_ones. lia. Qed.

Lemma low_xor x y : U32.wrap (Z.lxor x y) = Z.lxor (U32.wrap x) (U32.wrap y).
Proof.
  rewrite !low_ones. apply Z.bits_inj'. intros n Hn.
  rewrite Z.lxor_spec, !Z.land_spec, Z.lxor_spec.
  destruct (Z.testbit (Z.ones 32) n); rewrite ?andb_true_r, ?andb_false_r; reflexivity.
Qed.

Lemma mask_low x : Wide.mask x = U32.wrap x.
Proof. rewrite low_ones. reflexivity. Qed.

Lemma low_shr x k : 0 <= k -> U32.wrap (Z.shiftr (U32.wrap x) k) = Z.shiftr (U32.wrap x) k.
Proof. intros Hk. apply wrap_small, shr_range; [exact Hk|apply wrap_range]. Qed.

Lemma masked_low on x : U32.wrap (masked on x) = U32.wrap x.
Proof. destruct on; cbn [masked]; [rewrite mask_low; apply wrap_wrap|reflexivity]. Qed.

Section Lines.

Variable w : Z.
Hypothesis w_wide : 32 <= w.

Lemma low_line x y z u :
  U32.wrap (Z.lxor (Wide.sub w (Wide.sub w x y) z) u)
  = U32.xor (U32.sub (U32.sub (U32.wrap x) (U32.wrap y)) (U32.wrap z)) (U32.wrap u).
Proof. rewrite low_xor, !(low_sub w w_wide). reflexivity. Qed.

Lemma masked_exact on x y : U32.wrap x = y -> on = true -> masked on x = y.
Proof. intros <- ->. apply mask_low. Qed.

Lemma shifted_operand inner e x y k :
  0 <= k -> U32.wrap x = y -> (inner = false -> e = true) -> (e = true -> x = y) ->
  U32.wrap (Z.shiftr (masked inner x) k) = U32.shr y k.
Proof.
  intros Hk Hx Hi He. unfold U32.shr.
  assert (E : masked inner x = y).
  { destruct inner; [apply masked_exact; auto|cbn; auto]. }
  rewrite E, <- Hx. apply low_shr, Hk.
Qed.

Lemma stands_a ea eb ec outer inner k p q :
  0 <= k -> (inner = false -> ec = true) ->
  stands ea eb ec p q -> stands outer eb ec (wide_a w outer inner k p) (line_a k q).
Proof.
  destruct p as [[a b] c], q as [[a' b'] c'].
  intros Hk Hi [[La [Lb Lc]] [Ea [Eb Ec]]]. cbn [fst snd] in *.
  assert (L : U32.wrap (Z.lxor (Wide.sub w (Wide.sub w a b) c)
                               (Z.shiftr (masked inner c) k))
              = U32.xor (U32.sub (U32.sub a' b') c') (U32.shr c' k)).
  { rewrite low_line, La, Lb, Lc. f_equal. eapply shifted_operand; eauto. }
  unfold stands, wide_a, line_a. cbn [fst snd].
  repeat split; auto.
  - rewrite masked_low. exact L.
  - intros ->. apply masked_exact; auto.
Qed.

Lemma stands_b ea eb ec outer k p q :
  0 <= k ->
  stands ea eb ec p q -> stands ea outer ec (wide_b w outer k p) (line_b k q).
Proof.
  destruct p as [[a b] c], q as [[a' b'] c'].
  intros Hk [[La [Lb Lc]] [Ea [Eb Ec]]]. cbn [fst snd] in *.
  assert (L : U32.wrap (Z.lxor (Wide.sub w (Wide.sub w b c) a) (Wide.shl w a k))
              = U32.xor (U32.sub (U32.sub b' c') a') (U32.shl a' k)).
  { rewrite low_line, La, Lb, Lc. f_equal. rewrite (low_shl w w_wide) by exact Hk.
    rewrite La. reflexivity. }
  unfold stands, wide_b, line_b. cbn [fst snd].
  repeat split; auto.
  - rewrite masked_low. exact L.
  - intros ->. apply masked_exact; auto.
Qed.

Lemma stands_c ea eb ec outer inner k p q :
  0 <= k -> (inner = false -> eb = true) ->
  stands ea eb ec p q -> stands ea eb outer (wide_c w outer inner k p) (line_c k q).
Proof.
  destruct p as [[a b] c], q as [[a' b'] c'].
  intros Hk Hi [[La [Lb Lc]] [Ea [Eb Ec]]]. cbn [fst snd] in *.
  assert (L : U32.wrap (Z.lxor (Wide.sub w (Wide.sub w c a) b)
                               (Z.shiftr (masked inner b) k))
              = U32.xor (U32.sub (U32.sub c' a') b') (U32.shr b' k)).
  { rewrite low_line, La, Lb, Lc. f_equal. eapply shifted_operand; eauto. }
  unfold stands, wide_c, line_c. cbn [fst snd].
  repeat split; auto.
  - rewrite masked_low. exact L.
  - intros ->. apply masked_exact; auto.
Qed.

Lemma mix2_lines s :
  mix2 w s =
  wide_c w true false 15 (wide_b w true 10 (wide_a w true false 3
    (wide_c w true false 5 (wide_b w true 16 (wide_a w false true 12
      (wide_c w false true 13 (wide_b w false 8 (wide_a w false false 13 s)))))))).
Proof.
  destruct s as [[a b] c].
  cbv beta iota zeta delta [mix2 wide_a wide_b wide_c masked]. reflexivity.
Qed.

End Lines.

(** X2. On words of 32 bits or more (of 64 bits, say) [mix2] computes what [mix]
    computes on 32-bit words, for every triple of 32-bit values. *)
Theorem mix2_is_mix (w : Z) (s : acc) :
  32 <= w -> in_range3 s -> mix2 w s = mix s.
Proof.
  intros Hw [Ha [Hb Hc]].
  assert (H0 : stands true true true s s).
  { split; [|auto]. repeat split; apply wrap_small; assumption. }
  rewrite mix2_lines, mix_lines.
  assert (H : forall p q : acc, stands true true true p q -> p = q).
  { intros [[p1 p2] p3] [[q1 q2] q3] [_ [E1 [E2 E3]]]. cbn in *.
    rewrite E1, E2, E3; auto. }
  apply H.
  apply (stands_c w Hw true true true); [lia|auto|].
  apply (stands_b w Hw true true true); [lia|].
  apply (stands_a w Hw false true true); [lia|auto|].
  apply (stands_c w Hw false true false); [lia|auto|].
  apply (stands_b w Hw false false false); [lia|].
  apply (stands_a w Hw false false false); [lia|discriminate|].
  apply (stands_c w Hw false false true); [lia|discriminate|].
  apply (stands_b w Hw false true true); [lia|].
  apply (stands_a w Hw true true true); [lia|auto|].
  exact H0.
Qed.

(** ** [hashsize] and [hashmask] *)

Lemma hashsize_pow2 n : 0 <= n < 32 -> hashsize n = 2 ^ n.
Proof.
  intros Hn. unfold hashsize, U32.shl. rewrite Z.shiftl_mul_pow2, Z.mul_1_l by lia.
  apply wrap_small. unfold U32.in_range, U32.modulus.
  split; [apply Z.pow_nonneg; lia | apply Z.pow_lt_mono_r; lia].
Qed.

Lemma hashmask_ones n : 0 <= n < 32 -> hashmask n = Z.ones n.
Proof.
  intros Hn. unfold hashmask. rewrite hashsize_pow2 by exact Hn.
  rewrite Z.ones_equiv, <- Z.sub_1_r. apply wrap_small.
  assert (0 < 2 ^ n) by (apply Z.pow_pos_nonneg; lia).
  assert (2 ^ n < 2 ^ 32) by (apply Z.pow_lt_mono_r; lia).
  unfold U32.in_range, U32.modulus. lia.
Qed.

(** X3. For fewer than 32 bits, [h & hashmask(n)] is [h] modulo [hashsize(n)]:
    an index into a table of [hashsize(n)] elements. *)
Theorem hashmask_index (n h : Z) :
  0 <= n < 32 ->
  Z.land h (hashmask n) = h mod hashsize n /\
  0 <= Z.land h (hashmask n) < hashsize n.
Proof.
  intros Hn. rewrite hashmask_ones, hashsize_pow2 by exact Hn.
  rewrite Z.land_ones by lia. split; [reflexivity|].
  apply Z.mod_pos_bound, Z.pow_pos_nonneg; lia.
Qed.

(** ** The reads of [hash] stay inside the key *)

(** X4. [hash] reads no byte past the first [(uint32_t)length] bytes of the key:
    it returns a digest exactly when the key holds that many bytes, and the
    digest is a 32-bit value. *)
Theorem hash_reads_in_bounds (k : list byte) (n s : Z) :
  (is_Some (hash k n s) <-> U32.wrap n <= Z.of_nat (length k)) /\
  (forall d, hash k n s = Some d -> U32.in_range d).
Proof.
  rewrite hash_as_spec. unfold Spec.hash_spec.
  destruct (decide (U32.wrap n <= Z.of_nat (length k))) as [Hle|Hgt].
  - destruct (Spec.blocks _ _ _) as [rest [[a b] c]].
    match goal with
    | |- context [mix ?x] =>
        pose proof (mix_range x) as Hr; destruct (mix x) as [[a' b'] c']
    end.
    split; [split; eauto|]. intros d [= <-]. apply Hr.
  - split; [split; [intros [d Hd]; discriminate|lia]|]. intros d Hd. discriminate.
Qed.

(** ** A zero byte more is a seed one higher *)

Lemma fold_byte_zero s i : in_range3 s -> Spec.fold_byte s (i, x00) = s.
Proof.
  destruct s as [[a b] c]. intros [Ha [Hb Hc]]. cbn [fst snd] in *.
  unfold Spec.fold_byte. change (ub1 x00) with 0. rewrite !Z.mul_0_l.
  unfold U32.add. rewrite !Z.add_0_r.
  destruct (i <? 4)%nat; [rewrite (wrap_small a Ha); reflexivity|].
  destruct (i <? 8)%nat; [rewrite (wrap_small b Hb); reflexivity|].
  rewrite (wrap_small c Hc). reflexivity.
Qed.

Lemma fold_byte_range s ix : in_range3 s -> in_range3 (Spec.fold_byte s ix).
Proof.
  destruct s as [[a b] c], ix as [i x]. intros [Ha [Hb Hc]]. cbn [fst snd] in *.
  unfold Spec.fold_byte.
  unfold in_range3.
  destruct (i <? 4)%nat; [cbn [fst snd]; auto using add_range|].
  destruct (i <? 8)%nat; cbn [fst snd]; auto using add_range.
Qed.

Lemma fold_zeros (f : nat -> nat) m : forall j s,
  in_range3 s ->
  fold_left Spec.fold_byte (imap (fun i x => (f (j + i)%nat, x)) (replicate m x00)) s = s.
Proof.
  induction m as [|m IH]; intros j s Hs; [reflexivity|].
  cbn [replicate imap fold_left]. rewrite fold_byte_zero by exact Hs.
  rewrite <- (IH (S j) s Hs) at 2. f_equal. apply imap_ext. intros i x _. cbn.
  do 2 f_equal. lia.
Qed.

Lemma fold_rest_range k s : in_range3 s -> in_range3 (Spec.fold_rest k s).
Proof.
  unfold Spec.fold_rest. generalize (imap pair k). intros l. revert s.
  induction l as [|ix l IH]; intros s Hs; [exact Hs|].
  cbn [fold_left]. apply IH, fold_byte_range, Hs.
Qed.

Lemma fold_rest_zeros k m s :
  in_range3 s -> Spec.fold_rest (k ++ replicate m x00) s = Spec.fold_rest k s.
Proof.
  intros Hs. unfold Spec.fold_rest. rewrite imap_app, fold_left_app.
  fold (Spec.fold_rest k s).
  pose proof (fold_zeros (fun i => i) m (length k) (Spec.fold_rest k s)
                (fold_rest_range k s Hs)) as H.
  rewrite <- H at 2. f_equal.
Qed.

Lemma short_hash_spec k n s :
  n = Z.of_nat (length k) -> n < 12 ->
  Spec.hash_spec k n s =
    Some (mix (Spec.fold_rest k (golden, golden, U32.add s n))).2.
Proof.
  intros Hn Hlt. unfold Spec.hash_spec. rewrite decide_True by lia.
  rewrite Z.div_small, Z.mod_small by lia.
  change (Spec.blocks (Z.to_nat 0) k (golden, golden, s)) with (k, (golden, golden, s)).
  cbv beta iota. rewrite firstn_all2 by lia.
  destruct (mix _) as [[a b] c]. reflexivity.
Qed.

(** X5. For keys of up to 11 bytes the seed and the length enter the digest
    through their sum only: zero bytes appended to a key give the digest the
    key has under a seed as much higher. *)
Theorem hash_zero_byte_is_seed (k : list byte) (m : nat) (s : Z) :
  (length k + m <= 11)%nat ->
  hash (k ++ replicate m x00) (Z.of_nat (length k + m)) s
  = hash k (Z.of_nat (length k)) (U32.wrap (s + Z.of_nat m)).
Proof.
  intros Hl. rewrite !hash_as_spec.
  rewrite !wrap_small
    by (unfold U32.in_range, U32.modulus; change (2 ^ 32) with 4294967296; lia).
  rewrite !short_hash_spec by (rewrite ?length_app, ?length_replicate; lia).
  assert (E : U32.add s (Z.of_nat (length k + m))
              = U32.add (U32.wrap (s + Z.of_nat m)) (Z.of_nat (length k))).
  { rewrite add_wrap_l. unfold U32.add. f_equal. lia. }
  rewrite E, fold_rest_zeros; [reflexivity|].
  unfold in_range3. cbn [fst snd]. split; [|split]; try apply add_range;
    unfold U32.in_range, U32.modulus, golden; lia.
Qed.

(** * The example programs *)

(** ** stress_api_lock.c *)

Lemma i32_wrap_small x : I32.in_range x -> I32.wrap x = x.
Proof.
  unfold I32.in_range, I32.wrap. intros H. rewrite Z.mod_small; lia.
Qed.

Lemma next_value_step v :
  0 <= v <= 500 -> StressApiLock.next_value v = (v + 1) mod 501.
Proof.
  intros Hv. unfold StressApiLock.next_value.
  destruct (Z.leb_spec 500 v).
  - replace v with 500 by lia. reflexivity.
  - rewrite i32_wrap_small by (unfold I32.in_range; lia).
    rewrite Z.mod_small; lia.
Qed.

(** X6. The counter of [test_tag] runs through 0, 1, ..., 500 and starts again:
    its period is 501, and it takes the value 500. *)
Theorem next_value_cycle (v : Z) (n : nat) :
  0 <= v <= 500 ->
  Nat.iter n StressApiLock.next_value v = (v + Z.of_nat n) mod 501.
Proof.
  intros Hv. induction n as [|n IH].
  - cbn. rewrite Z.add_0_r, Z.mod_small; lia.
  - rewrite Nat.iter_succ, IH.
    pose proof (Z.mod_pos_bound (v + Z.of_nat n) 501 ltac:(lia)).
    rewrite next_value_step by lia.
    rewrite Zplus_mod_idemp_l. f_equal. lia.
Qed.

(** The update never overflows an [int32_t]. *)
Lemma next_value_no_overflow (v : Z) :
  I32.in_range v ->
  I32.in_range (StressApiLock.next_value v) /\
  (v < 500 -> StressApiLock.next_value v = v + 1) /\
  (500 <= v -> StressApiLock.next_value v = 0).
Proof.
  unfold I32.in_range, StressApiLock.next_value. intros Hv.
  destruct (Z.leb_spec 500 v).
  - repeat split; lia.
  - rewrite i32_wrap_small by (unfold I32.in_range; lia). repeat split; lia.
Qed.

Lemma thread_loop_run num_threads : forall (fuel : nat) (tid : Z),
  0 <= tid -> (Z.to_nat (StressApiLock.MAX_THREADS - tid) < fuel)%nat ->
  StressApiLock.thread_loop fuel tid num_threads
  = Some (map (fun i => tid + Z.of_nat i)
              (seq 0 (Z.to_nat (Z.min num_threads StressApiLock.MAX_THREADS - tid)))).
Proof.
  unfold StressApiLock.MAX_THREADS.
  induction fuel as [|fuel IH]; intros tid Ht Hf; [lia|].
  cbn [StressApiLock.thread_loop]. unfold StressApiLock.MAX_THREADS.
  destruct (Z.ltb_spec tid num_threads); destruct (Z.ltb_spec tid 100); cbn [andb].
  - rewrite i32_wrap_small by (unfold I32.in_range; lia).
    rewrite IH by lia.
    replace (Z.to_nat (Z.min num_threads 100 - tid))
      with (S (Z.to_nat (Z.min num_threads 100 - (tid + 1)))) by lia.
    cbn [seq map fmap option_fmap option_map]. f_equal. f_equal; [lia|].
    rewrite <- seq_shift, map_map. apply map_ext. intros i. lia.
  - replace (Z.to_nat (Z.min num_threads 100 - tid)) with 0%nat by lia. reflexivity.
  - replace (Z.to_nat (Z.min num_threads 100 - tid)) with 0%nat by lia. reflexivity.
  - replace (Z.to_nat (Z.min num_threads 100 - tid)) with 0%nat by lia. reflexivity.
Qed.

(** X7. Whatever [num_threads] is, the loop runs for [tid = 0, 1, ...] below
    both [num_threads] and [MAX_THREADS] and stops: [threads[tid]] is always
    inside the array, and the joining loop visits the threads created. *)
Theorem thread_loop_in_bounds (num_threads : Z) :
  exists tids,
    StressApiLock.thread_loop 101 0 num_threads = Some tids /\
    tids = map Z.of_nat (seq 0 (Z.to_nat (Z.min num_threads StressApiLock.MAX_THREADS))) /\
    Forall (fun tid => 0 <= tid < StressApiLock.MAX_THREADS) tids.
Proof.
  eexists. split; [|split].
  - rewrite thread_loop_run by (unfold StressApiLock.MAX_THREADS; lia).
    rewrite Z.sub_0_r. reflexivity.
  - reflexivity.
  - apply Forall_forall. intros tid Hin. apply list_elem_of_In in Hin.
    apply in_map_iff in Hin as [i [<- Hi]].
    apply in_seq in Hi. unfold StressApiLock.MAX_THREADS in *. lia.
Qed.

Section Library.

Variable PLCTAG_STATUS_OK : Z.
Variable PLCTAG_ERR_CREATE : Z.

Abbreviation open_tag_of := (StressApiLock.open_tag PLCTAG_STATUS_OK PLCTAG_ERR_CREATE).

(** X8. What [main] accepts from [open_tag] is the handle of a tag whose status
    is OK, or else a status that is not OK and not negative, returned in
    place of a handle after the tag was destroyed. *)
Theorem open_tag_accepted (created status : Z) :
  PLCTAG_ERR_CREATE < 0 ->
  StressApiLock.main_accepts (open_tag_of created status).1 = true ->
  0 <= created /\
  ((status = PLCTAG_STATUS_OK /\ open_tag_of created status = (created, [])) \/
   (status <> PLCTAG_STATUS_OK /\ 0 <= status /\
    open_tag_of created status = (status, [StressApiLock.Destroy created]))).
Proof.
  unfold StressApiLock.main_accepts, StressApiLock.open_tag. intros He.
  destruct (Z.ltb_spec created 0); cbn [fst].
  - rewrite (proj2 (Z.ltb_lt _ _) He). discriminate.
  - destruct (Z.eqb_spec status PLCTAG_STATUS_OK); cbn [negb fst].
    + intros _. split; [lia|]. left. auto.
    + intros Hs. split; [lia|]. right. split; [assumption|].
      split; [|reflexivity]. destruct (Z.ltb_spec status 0); [discriminate|lia].
Qed.

End Library.

(** ** multithread_plc5_dhp.c *)

Lemma plc5_create_loop_run num_threads : forall (fuel : nat) (thread_id : Z),
  0 <= thread_id -> num_threads <= Plc5Dhp.MAX_THREADS ->
  (Z.to_nat (num_threads - thread_id) < fuel)%nat ->
  Plc5Dhp.create_loop fuel thread_id num_threads
  = Some (map (fun i => thread_id + Z.of_nat i)
              (seq 0 (Z.to_nat (num_threads - thread_id)))).
Proof.
  unfold Plc5Dhp.MAX_THREADS.
  induction fuel as [|fuel IH]; intros tid Ht Hn Hf; [lia|].
  cbn [Plc5Dhp.create_loop]. destruct (Z.ltb_spec tid num_threads).
  - rewrite i32_wrap_small by (unfold I32.in_range; lia).
    rewrite IH by lia.
    replace (Z.to_nat (num_threads - tid))
      with (S (Z.to_nat (num_threads - (tid + 1)))) by lia.
    cbn [seq map fmap option_fmap option_map]. f_equal. f_equal; [lia|].
    rewrite <- seq_shift, map_map. apply map_ext. intros i. lia.
  - replace (Z.to_nat (num_threads - tid)) with 0%nat by lia. reflexivity.
Qed.

(** X9. Whatever [num_threads] is and whatever the library returns, [main]
    gets as far as its loop or returns before it, and the threads it creates
    are numbered from 0 and below [MAX_THREADS]: [thread[thread_id]] is always
    inside the array.  They are exactly the threads 0 to [num_threads - 1]
    when [num_threads] passes the check and the tag is created with status
    OK, and there is none otherwise. *)
Theorem plc5_threads_in_bounds (ok num_threads created status : Z) :
  exists tids,
    Plc5Dhp.created_threads ok 6 num_threads created status = Some tids /\
    Forall (fun tid => 0 <= tid < Plc5Dhp.MAX_THREADS) tids /\
    tids = (if decide (1 <= num_threads <= Plc5Dhp.MAX_THREADS /\
                       0 <= created /\ status = ok)
            then map Z.of_nat (seq 0 (Z.to_nat num_threads))
            else []).
Proof.
  unfold Plc5Dhp.created_threads, Plc5Dhp.MAX_THREADS.
  destruct (Z.ltb_spec num_threads 1);
    [exists []; rewrite decide_False by lia; cbn [orb]; auto|].
  destruct (Z.ltb_spec 5 num_threads);
    [exists []; rewrite decide_False by lia; cbn [orb]; auto|].
  cbn [orb]. destruct (Z.ltb_spec created 0);
    [exists []; rewrite decide_False by lia; auto|].
  destruct (Z.eqb_spec status ok);
    [|exists []; rewrite decide_False by tauto; cbn [negb]; auto].
  cbn [negb]. rewrite decide_True by lia. eexists. split; [|split].
  - rewrite plc5_create_loop_run by (unfold Plc5Dhp.MAX_THREADS; lia).
    rewrite Z.sub_0_r. reflexivity.
  - apply Forall_forall. intros tid Hin. apply list_elem_of_In in Hin.
    apply in_map_iff in Hin as [i [<- Hi]]. apply in_seq in Hi. lia.
  - reflexivity.
Qed.

(** ** async.c *)

Lemma create_loop_from created : forall tag failed,
  fold_left Async.create_step created (tag, failed)
  = (tag ++ map (fun r => if r <? 0 then 0 else r) created,
     failed || existsb (fun r => r <? 0) created).
Proof.
  induction created as [|r created IH]; intros tag failed.
  - cbn. rewrite app_nil_r, orb_false_r. reflexivity.
  - cbn [fold_left Async.create_step map existsb]. destruct (r <? 0).
    + rewrite IH, <- app_assoc. cbn. rewrite orb_true_r. reflexivity.
    + rewrite IH, <- app_assoc. reflexivity.
Qed.

(** X10. At its end [main] destroys exactly the handles above 0 that
    [plc_tag_create] returned, in order; an error code is never given to
    [plc_tag_destroy], and [failed] is set exactly when a creation returned a
    negative value. *)
Theorem async_destroys_created (created : list Z) :
  Async.destroyed (Async.create_loop created).1 = filter (fun r => 0 < r) created /\
  ((Async.create_loop created).2 = true <-> Exists (fun r => r < 0) created).
Proof.
  unfold Async.create_loop. rewrite create_loop_from. cbn [fst snd app orb].
  split.
  - unfold Async.destroyed. induction created as [|r created IH]; [reflexivity|].
    cbn [map]. rewrite !filter_cons, IH.
    destruct (Z.ltb_spec r 0).
    + rewrite decide_False by lia. rewrite decide_False by lia. reflexivity.
    + destruct (decide (r = 0)) as [->|Hne].
      * rewrite decide_False by lia. rewrite decide_False by lia. reflexivity.
      * rewrite decide_True by lia. rewrite decide_True by lia. reflexivity.
  - rewrite existsb_exists, Exists_exists. split.
    + intros [r [Hin Hr]]. exists r. split; [apply list_elem_of_In, Hin|].
      apply Z.ltb_lt, Hr.
    + intros [r [Hin Hr]]. exists r. split; [apply list_elem_of_In, Hin|].
      apply Z.ltb_lt, Hr.
Qed.

(** ** The theorems at work *)

Lemma mix_reversible_witness :
  in_range3 (1, 2, 3) /\ unmix (mix (1, 2, 3)) = (1, 2, 3).
Proof.
  assert (H : in_range3 (1, 2, 3))
    by (unfold in_range3, U32.in_range, U32.modulus; cbn [fst snd]; lia).
  split; [exact H|]. exact (proj1 (mix_reversible (1, 2, 3) H)).
Defined.

Lemma mix2_is_mix_witness :
  32 <= 64 /\ in_range3 (1, 2, 3) /\ mix2 64 (1, 2, 3) = mix (1, 2, 3).
Proof.
  assert (Hw : 32 <= 64) by lia.
  assert (H : in_range3 (1, 2, 3))
    by (unfold in_range3, U32.in_range, U32.modulus; cbn [fst snd]; lia).
  split; [exact Hw|]. split; [exact H|]. exact (mix2_is_mix 64 (1, 2, 3) Hw H).
Defined.

Lemma hashmask_index_witness :
  0 <= 10 < 32 /\ Z.land 3210426734 (hashmask 10) = 3210426734 mod hashsize 10.
Proof.
  assert (H : 0 <= 10 < 32) by lia.
  split; [exact H|]. exact (proj1 (hashmask_index 10 3210426734 H)).
Defined.

Lemma hash_zero_byte_is_seed_witness :
  (length [x61] + 2 <= 11)%nat /\
  hash ([x61] ++ replicate 2 x00) (Z.of_nat (length [x61] + 2)) 7
  = hash [x61] (Z.of_nat (length [x61])) (U32.wrap (7 + Z.of_nat 2)).
Proof.
  assert (H : (length [x61] + 2 <= 11)%nat) by (cbn; lia).
  split; [exact H|]. exact (hash_zero_byte_is_seed [x61] 2 7 H).
Defined.

Lemma next_value_cycle_witness :
  0 <= 499 <= 500 /\
  Nat.iter 2 StressApiLock.next_value 499 = (499 + Z.of_nat 2) mod 501.
Proof.
  assert (H : 0 <= 499 <= 500) by lia.
  split; [exact H|]. exact (next_value_cycle 499 2 H).
Defined.

Lemma open_tag_accepted_witness :
  -7 < 0 /\
  StressApiLock.main_accepts (StressApiLock.open_tag 0 (-7) 3 1).1 = true /\
  StressApiLock.open_tag 0 (-7) 3 1 = (1, [StressApiLock.Destroy 3]).
Proof.
  assert (H1 : -7 < 0) by lia.
  assert (H2 : StressApiLock.main_accepts (StressApiLock.open_tag 0 (-7) 3 1).1 = true)
    by reflexivity.
  split; [exact H1|]. split; [exact H2|].
  destruct (open_tag_accepted 0 (-7) 3 1 H1 H2) as [_ [[E _]|[_ [_ E]]]].
  - discriminate E.
  - exact E.
Defined.
